(** * gpt-subb: the batch / correlate / reassemble pipeline of [src/index.ts]

    A shallow embedding of the pure part of the subtitle translator:
    [randomCode], [getMessageQueue], [translateQueue], [translateQueues],
    [translatedToCues], [applyTranslationCues], [prepareOutput] and the
    order in which [main] chains them, with what [getChatGPTAnswer] reads
    of a completion.  The chat completion service is a parameter (an
    oracle giving the completion of the k-th request), file access and
    logging are left out. *)

From stdpp Require Import base numbers list option strings gmap.

Local Open Scope N_scope.

(** ** JavaScript strings

    A string is a sequence of UTF-16 code units; the two regular
    expressions of the program have no [u] flag, so they see code units. *)

Abbreviation char := N (only parsing).
Abbreviation jsstring := (list N) (only parsing).

Definition str (s : string) : jsstring := Ascii.N_of_ascii <$> String.list_ascii_of_string s.

Definition LF : char := 10.

(** ECMAScript LineTerminator: LF, CR, LS, PS. *)
Definition is_line_terminator (c : char) : bool :=
  (c =? 10) || (c =? 13) || (c =? 8232) || (c =? 8233).

(** The class [\s]: WhiteSpace and LineTerminator code points. *)
Definition is_white_space (c : char) : bool :=
  (c =? 9) || (c =? 11) || (c =? 12) || (c =? 32) || (c =? 160)
  || (c =? 5760) || ((8192 <=? c) && (c <=? 8202)) || (c =? 8239)
  || (c =? 8287) || (c =? 12288) || (c =? 65279) || is_line_terminator c.

(** The atom [.] without the [s] flag. *)
Definition dot (c : char) : bool := negb (is_line_terminator c).

(** The class [[A-Z0-9]]. *)
Definition is_upper (c : char) : bool := (65 <=? c) && (c <=? 90).
Definition is_digit (c : char) : bool := (48 <=? c) && (c <=? 57).
Definition token_char (c : char) : bool := is_upper c || is_digit c.

(** [!!s] for a string. *)
Definition truthy (s : jsstring) : bool :=
  match s with [] => false | _ => true end.

(** [Array.prototype.join]. *)
Fixpoint join (sep : jsstring) (l : list jsstring) : jsstring :=
  match l with
  | [] => []
  | [x] => x
  | x :: l' => x ++ sep ++ join sep l'
  end.

(** [s.startsWith(p)], used by the string searches below. *)
Fixpoint starts_with (p s : jsstring) : bool :=
  match p, s with
  | [], _ => true
  | a :: p', b :: s' => (a =? b) && starts_with p' s'
  | _ :: _, [] => false
  end.

(** [String.prototype.split] with a non-empty string separator: the
    occurrences of [sep] are located left to right and do not overlap.
    [skip] counts the code units of the occurrence just found that are
    still to be passed over; [cur] is the piece being collected, reversed. *)
Fixpoint split_go (sep s : jsstring) (skip : nat) (cur : jsstring)
  : list jsstring :=
  match s with
  | [] => [reverse cur]
  | c :: s' =>
      match skip with
      | S k => split_go sep s' k cur
      | O =>
          if starts_with sep s
          then reverse cur :: split_go sep s' (pred (length sep)) []
          else split_go sep s' 0 (c :: cur)
      end
  end.

Definition split (sep s : jsstring) : list jsstring := split_go sep s 0 [].

(** [GetSubstitution] for a string pattern (no capture groups): [$$] is a
    dollar sign, [$&] the matched text, [$`] the text before the match,
    [$'] the text after it; every other code unit stands for itself. *)
Fixpoint get_substitution (matched before after repl : jsstring) : jsstring :=
  match repl with
  | [] => []
  | c :: r =>
      if c =? 36 then
        match r with
        | d :: r' =>
            if d =? 36 then 36 :: get_substitution matched before after r'
            else if d =? 38 then matched ++ get_substitution matched before after r'
            else if d =? 96 then before ++ get_substitution matched before after r'
            else if d =? 39 then after ++ get_substitution matched before after r'
            else c :: get_substitution matched before after r
        | [] => [c]
        end
      else c :: get_substitution matched before after r
  end.

(** [String.prototype.replace(pat, repl)] with a string pattern: only the
    first occurrence is replaced. [before] is the text already passed,
    reversed. *)
Fixpoint replace_first_go (pat repl : jsstring) (before s : jsstring) : jsstring :=
  if starts_with pat s
  then get_substitution pat (reverse before) (drop (length pat) s) repl
         ++ drop (length pat) s
  else match s with
       | [] => []
       | c :: s' => c :: replace_first_go pat repl (c :: before) s'
       end.

Definition replace_first (pat repl s : jsstring) : jsstring :=
  replace_first_go pat repl [] s.

(** ** The regular expressions

    Both patterns of the program are sequences of the terms below: a
    pattern character, a class atom, a class atom under the greedy [*] or
    under [{n}], the assertions [^] and [$] (as the [m] flag reads them),
    and the parentheses of a capture group. Groups are not nested. *)

Inductive term :=
  | Chr (c : char)
  | Star (p : char → bool)
  | Rep (n : nat) (p : char → bool)
  | Bol
  | Eol
  | Open
  | Close.

(** The outcome of matching a sequence of terms at one position: the code
    units each term consumed, and the input that is left. *)
Definition outcome : Type := list jsstring * jsstring.

Definition consumed (chunk : jsstring) (r : option outcome) : option outcome :=
  match r with
  | Some (chunks, rest) => Some (chunk :: chunks, rest)
  | None => None
  end.

(** The code unit before the current position once [chunk] is consumed. *)
Definition prev_after (prev : option char) (chunk : jsstring) : option char :=
  match last chunk with Some c => Some c | None => prev end.

(** [^] under [m]: the start of the input, or just after a line terminator. *)
Definition at_line_start (prev : option char) : bool :=
  match prev with None => true | Some c => is_line_terminator c end.

(** [$] under [m]: the end of the input, or just before a line terminator. *)
Definition at_line_end (s : jsstring) : bool :=
  match s with [] => true | c :: _ => is_line_terminator c end.

(** Length of the longest prefix of [s] made of [p]. *)
Fixpoint run_length (p : char → bool) (s : jsstring) : nat :=
  match s with
  | c :: s' => if p c then S (run_length p s') else O
  | [] => O
  end.

Section star.
(** What follows the starred atom in the pattern. *)
Variable k : option char → jsstring → option outcome.
Variables (prev : option char) (s : jsstring).

(** Greedy [*] with backtracking: [n] repetitions first, then fewer. *)
Fixpoint backtrack (n : nat) : option outcome :=
  match consumed (take n s) (k (prev_after prev (take n s)) (drop n s)) with
  | Some r => Some r
  | None => match n with O => None | S n' => backtrack n' end
  end.

End star.

(** The backtracking matcher, at the position whose previous code unit is
    [prev] and whose remaining input is [s]. *)
Fixpoint exec (re : list term) (prev : option char) (s : jsstring)
  : option outcome :=
  match re with
  | [] => Some ([], s)
  | t :: re' =>
      match t with
      | Chr c =>
          match s with
          | x :: s' =>
              if x =? c then consumed [x] (exec re' (Some x) s') else None
          | [] => None
          end
      | Star p => backtrack (exec re') prev s (run_length p s)
      | Rep n p =>
          if (length (take n s) =? n)%nat && forallb p (take n s)
          then consumed (take n s) (exec re' (prev_after prev (take n s)) (drop n s))
          else None
      | Bol => if at_line_start prev then consumed [] (exec re' prev s) else None
      | Eol => if at_line_end s then consumed [] (exec re' prev s) else None
      | Open | Close => consumed [] (exec re' prev s)
      end
  end.

(** The captures of a successful match, in the order of the groups. *)
Fixpoint captures (re : list term) (chunks : list jsstring)
    (open : option jsstring) : list jsstring :=
  match re, chunks with
  | Open :: re', _ :: chunks' => captures re' chunks' (Some [])
  | Close :: re', _ :: chunks' =>
      match open with
      | Some c => c :: captures re' chunks' None
      | None => captures re' chunks' None
      end
  | _ :: re', c :: chunks' =>
      captures re' chunks' (match open with Some o => Some (o ++ c) | None => None end)
  | _, _ => []
  end.

(** [RegExpBuiltinExec] without the sticky flag: the first position, from
    the current one on, where the pattern matches. Returns the code units
    passed over, the match and the rest of the input. *)
Fixpoint search (re : list term) (prev : option char) (s : jsstring)
  : option (jsstring * list jsstring * jsstring) :=
  match exec re prev s with
  | Some (chunks, rest) => Some ([], chunks, rest)
  | None =>
      match s with
      | [] => None
      | c :: s' =>
          match search re (Some c) s' with
          | Some (skipped, chunks, rest) => Some (c :: skipped, chunks, rest)
          | None => None
          end
      end
  end.

(** [RegExp.prototype[Symbol.replace]] with the [g] flag. Every match is
    replaced by [sub] of its chunks; the code units between matches are
    copied. After an empty match the search resumes one code unit later.
    [skip] counts the code units of the last match still to be passed. *)
Fixpoint replace_all (re : list term) (sub : list jsstring → jsstring)
    (prev : option char) (s : jsstring) (skip : nat) : jsstring :=
  match skip with
  | S n =>
      match s with
      | [] => []
      | c :: s' => replace_all re sub (Some c) s' n
      end
  | O =>
      match exec re prev s with
      | Some (chunks, _) =>
          sub chunks ++
          match s with
          | [] => []
          | c :: s' =>
              match length (concat chunks) with
              | O => c :: replace_all re sub (Some c) s' 0
              | S n => replace_all re sub (Some c) s' n
              end
          end
      | None =>
          match s with
          | [] => []
          | c :: s' => c :: replace_all re sub (Some c) s' 0
          end
      end
  end.

(** The pattern of [translateQueue], flags [g] and [m], term by term:
    [^]  [\s*]  [(]  [.*]  [)]  [\s*]  [$]. *)
Definition trim_re : list term :=
  [Bol; Star is_white_space; Open; Star dot; Close; Star is_white_space; Eol].

(** The pattern of [translatedToCues], flags [g] and [m], term by term:
    [<]  [(]  [[A-Z0-9]{6}]  [)]  [>]  [\n]  [(]  [.*]  [)]. *)
Definition marker_re : list term :=
  [Chr 60; Open; Rep 6 token_char; Close; Chr 62; Chr 10; Open; Star dot; Close].

(** The replacement ['$1']. *)
Definition dollar1 (re : list term) (chunks : list jsstring) : jsstring :=
  default [] (head (captures re chunks None)).


(** ** Exceptions

    The two ways the pure part of the program throws. *)

Inductive exn := RangeError | TypeError.

Inductive result (A : Type) :=
  | Ok (a : A)
  | Throw (e : exn).
Arguments Ok {A} a.
Arguments Throw {A} e.

Global Instance result_bind : MBind result := λ A B f r,
  match r with Ok a => f a | Throw e => Throw e end.

(** ** Cues

    What [parseSync] returns: header nodes and cue nodes. The [type] field
    is the constructor. *)

Record cue := { start : Z; end_ : Z; text : jsstring; settings : option jsstring }.

Inductive node :=
  | Header (data : jsstring)
  | Cue (data : cue).

(** A node with the correlation code [parseFile] attaches to it. *)
Record pnode := { item : node; code : jsstring }.

(** The node after [applyTranslationCues]; [None] is [null]. *)
Record tnode := { source : pnode; translated : option jsstring }.

(** An element of the array [prepareOutput] returns: the object it was
    given, with its [code] and [translated] fields, or a new object made
    of [type] and [data] only. *)
Inductive onode :=
  | Kept (t : tnode)
  | Rebuilt (n : node).

(** What [stringifySync] reads from an output element. *)
Definition out_node (o : onode) : node :=
  match o with Kept t => item (source t) | Rebuilt n => n end.

(** The [code] field of an output element, when it has one. *)
Definition out_code (o : onode) : option jsstring :=
  match o with Kept t => Some (code (source t)) | Rebuilt _ => None end.

Definition node_text (n : node) : option jsstring :=
  match n with Cue c => Some (text c) | Header _ => None end.

(** ** randomCode

    [rnd i] stands for the i-th value of [Math.random], already scaled and
    floored; the remainder keeps it below the bound it was scaled by. *)
Definition randomCode (alpha number : nat) (rnd : nat → N) : jsstring :=
  ((λ i, 65 + rnd i mod 26) <$> seq 0 alpha)
  ++ ((λ i, 48 + rnd i mod 10) <$> seq alpha number).

(** The shape [randomCode(3, 3)] gives every code. *)
Definition is_code (c : jsstring) : bool :=
  (length c =? 6)%nat && forallb is_upper (take 3 c) && forallb is_digit (drop 3 c).

(** ** getMessageQueue *)

(** [Math.ceil(n / b)] for an array length [n] and an integer [b]: [None]
    when the quotient is not finite ([b = 0]). A quotient that rounds up
    to minus zero gives 0. An array length is below [2 ^ 32], so the
    quotient computed in double precision has the ceiling of the exact
    quotient. *)
Definition math_ceil_div (n b : Z) : option Z :=
  if (b =? 0)%Z then None else Some (- ((- n) `div` b))%Z.

(** [Array(len).fill(null)]: a [RangeError] unless [len] is an array length. *)
Definition js_Array (len : option Z) : result (list unit) :=
  match len with
  | Some z =>
      if (0 <=? z)%Z && (z <? 2 ^ 32)%Z
      then Ok (replicate (Z.to_nat z) ())
      else Throw RangeError
  | None => Throw RangeError
  end.

(** [Array.prototype.slice(start, end)] with integer bounds; a negative
    bound counts from the end. *)
Definition js_slice {A} (l : list A) (start end' : Z) : list A :=
  let len := Z.of_nat (length l) in
  let clamp i := (if i <? 0 then Z.max (len + i) 0 else Z.min i len)%Z in
  let k := clamp start in
  let final := clamp end' in
  take (Z.to_nat (final - k)) (drop (Z.to_nat k) l).

(** The template literal: the code between angle brackets, a line feed,
    the text. *)
Definition msg (code text : jsstring) : jsstring :=
  str "<" ++ code ++ str ">" ++ [LF] ++ text.

(** The text sent for one node, or nothing. *)
Definition message (p : pnode) : option jsstring :=
  match item p with
  | Cue data => if truthy (text data) then Some (msg (code p) (text data)) else None
  | Header _ => None
  end.

Definition getMessageQueue (parsed : list pnode) (batchSize : Z)
  : result (list (list jsstring)) :=
  let cues := omap message parsed in
  let batches := math_ceil_div (Z.of_nat (length cues)) batchSize in
  arr ← js_Array batches ;
  Ok (imap (λ index _,
        js_slice cues (Z.of_nat index * batchSize) ((Z.of_nat index + 1) * batchSize)) arr).

(** ** getChatGPTAnswer, translateQueue, translateQueues *)

Record options := { batchSize : Z; language : jsstring; prompt : jsstring }.

(** The separator line put between the items of a batch. *)
Definition separator : jsstring := [LF] ++ str "<000000>" ++ [LF].

Definition render_prompt (o : options) (queue : list jsstring) : jsstring :=
  replace_first (str "[text]") (join separator queue)
    (replace_first (str "[lang]") (language o) (prompt o)).

(** What the request of [getChatGPTAnswer] settles to once its [catch]
    has run: [null] when the request was rejected, else the response, of
    which the code reads the choices. Of a choice it reads the content of
    the message: [None] stands for a choice without message or content. *)
Inductive completion :=
  | Rejected
  | Choices (choices : list (option jsstring)).

(** [openai] stands for [createChatCompletion] followed by its [catch].
    The optional chain ends at a [null] completion and gives [undefined];
    on a response it reads [choices[0].message], and when there is no
    first choice that is a property access on [undefined]: a [TypeError],
    which nothing catches. *)
Definition getChatGPTAnswer (openai : jsstring → completion) (prompt : jsstring)
  : result (option jsstring) :=
  match openai prompt with
  | Rejected => Ok None
  | Choices [] => Throw TypeError
  | Choices (choice :: _) => Ok choice
  end.

Definition translateQueue (o : options) (openai : jsstring → completion)
    (queue : list jsstring) : result (list jsstring) :=
  let prompt := render_prompt o queue in
  translation ← getChatGPTAnswer openai prompt;
  match translation with
  | None => Ok queue
  | Some translation =>
      if truthy translation
      then Ok (split separator
                 (replace_all trim_re (dollar1 trim_re) None translation 0))
      else Ok queue
  end.

(** The queues are sent one after the other; [service k] gives the
    completion of the request number [k]. Returns the collected lines and
    the prompts sent; when a request throws, the loop ends there and the
    queues after it are not sent. *)
Fixpoint translateQueues_from (o : options)
    (service : nat → jsstring → completion) (k : nat)
    (queues : list (list jsstring)) : result (list jsstring) * list jsstring :=
  match queues with
  | [] => (Ok [], [])
  | queue :: queues' =>
      match translateQueue o (service k) queue with
      | Throw e => (Throw e, [render_prompt o queue])
      | Ok queueResult =>
          let '(lines, sent) := translateQueues_from o service (S k) queues' in
          (lines ← lines; Ok (queueResult ++ lines), render_prompt o queue :: sent)
      end
  end.

Definition translateQueues o service queues := translateQueues_from o service 0 queues.

(** ** translatedToCues *)

(** [item.matchAll(re).next().value]: the first match of the pattern in
    [item] as the array of the matched text and the captures, or [None]
    for [undefined]. *)
Definition first_match (item : jsstring) : option (list jsstring) :=
  match search marker_re None item with
  | Some (_, chunks, _) => Some (concat chunks :: captures marker_re chunks None)
  | None => None
  end.

(** The callback of the [map]: destructuring [undefined] is a [TypeError]. *)
Definition translatedToCue (item : jsstring) : result (option (jsstring * jsstring)) :=
  match first_match item with
  | None => Throw TypeError
  | Some m =>
      match m !! 1%nat, m !! 2%nat with
      | Some code, Some text =>
          if negb (truthy code) || negb (truthy text) then Ok None
          else Ok (Some (code, text))
      | _, _ => Ok None
      end
  end.

Fixpoint translatedToCues (translated : list jsstring)
  : result (list (jsstring * jsstring)) :=
  match translated with
  | [] => Ok []
  | item :: rest =>
      c ← translatedToCue item ;
      cs ← translatedToCues rest ;
      Ok (match c with Some p => p :: cs | None => cs end)
  end.

(** ** applyTranslationCues, prepareOutput *)

(** [new Map(pairs)]: a later pair replaces an earlier one with the same key. *)
Definition to_Map (translations : list (jsstring * jsstring)) : gmap (list N) (list N) :=
  foldl (λ m p, <[p.1 := p.2]> m) ∅ translations.

Definition applyTranslationCues (parsed : list pnode)
    (translations : list (jsstring * jsstring)) : list tnode :=
  let map := to_Map translations in
  (λ item, {| source := item; translated := map !! code item |}) <$> parsed.

Definition prepareOutput1 (t : tnode) : onode :=
  match translated t, item (source t) with
  | Some tr, Cue data =>
      if truthy tr
      then Rebuilt (Cue {| start := start data; end_ := end_ data;
                           text := tr; settings := settings data |})
      else Kept t
  | _, _ => Kept t
  end.

Definition prepareOutput (translated : list tnode) : list onode :=
  prepareOutput1 <$> translated.

(** ** main

    From the parsed nodes to the array handed to [stringifySync], with the
    prompts that were sent on the way. *)
Definition main (o : options) (service : nat → jsstring → completion)
    (parsed : list pnode) : result (list onode) * list jsstring :=
  match getMessageQueue parsed (batchSize o) with
  | Throw e => (Throw e, [])
  | Ok messages =>
      let '(translated, sent) := translateQueues o service messages in
      (translated ← translated;
       translatedCues ← translatedToCues translated;
       Ok (prepareOutput (applyTranslationCues parsed translatedCues)), sent)
  end.

Definition default_prompt : jsstring :=
  str "Translate the following text into [lang] but keep the 6 digit codes between < > intact:"
  ++ [LF; LF] ++ str "[text]".

Definition default_options : options :=
  {| batchSize := 15; language := str "en-us"; prompt := default_prompt |}.


(** ** Vocabulary of the statements *)

(** A line the trimming pattern leaves as it is: not empty, free of line
    terminators, and not starting with white space. *)
Definition plain (l : jsstring) : bool :=
  match l with
  | c :: _ => negb (is_white_space c) && forallb dot l
  | [] => false
  end.

(** The chunks of a match of [marker_re] with code [c] and text [t]. *)
Definition marker_chunks (c t : jsstring) : list jsstring :=
  [[60]; []; c; []; [62]; [10]; []; t; []].

(** What may follow a plain line: the end of the text, or one line feed
    and a code unit that is not white space. *)
Definition line_follows (rest : jsstring) : Prop :=
  rest = [] ∨ ∃ c r, rest = LF :: c :: r ∧ is_white_space c = false.

(** The line that stands between two items of a batch. *)
Definition sentinel : jsstring := str "<000000>".

(** An item that comes back as it was sent when the reply repeats the
    request: a code as [randomCode] makes it, and a text that is one plain
    line other than the sentinel. *)
Definition echo_safe (c t : jsstring) : Prop :=
  is_code c = true ∧ plain t = true ∧ t ≠ sentinel.

(** The text recovered for the code [k]: that of the last pair carrying
    [k], if there is one. *)
Fixpoint recovered (pairs : list (jsstring * jsstring)) (k : jsstring)
  : option jsstring :=
  match pairs with
  | [] => None
  | (c, t) :: rest =>
      match recovered rest k with
      | Some t' => Some t'
      | None => if decide (c = k) then Some t else None
      end
  end.

(** The pair a node stands for in a batch: its code and its text, when it
    is a cue with text. *)
Definition pair_of (p : pnode) : option (jsstring * jsstring) :=
  match item p with
  | Cue data => if truthy (text data) then Some (code p, text data) else None
  | Header _ => None
  end.

(** The codes of the cue nodes, in order. *)
Definition cue_codes (parsed : list pnode) : list jsstring :=
  omap (λ p, match item p with Cue _ => Some (code p) | Header _ => None end) parsed.

(** The cue [c] with the text [t]. *)
Definition with_text (c : cue) (t : jsstring) : cue :=
  {| start := start c; end_ := end_ c; text := t; settings := settings c |}.

(** [p] occurs somewhere in [s]. *)
Fixpoint occurs (p s : jsstring) : bool :=
  starts_with p s || match s with [] => false | _ :: s' => occurs p s' end.

(** A marker begins the text [s]: an opening bracket, six code units of
    the token alphabet, a closing bracket and a line feed. *)
Definition marker_at (s : jsstring) : bool :=
  match s with
  | c :: s' =>
      (c =? 60) && (length (take 6 s') =? 6)%nat
      && forallb token_char (take 6 s') && starts_with [62; LF] (drop 6 s')
  | [] => false
  end.

(** No marker begins inside [pre] when [pre] is followed by [rest]. *)
Fixpoint no_marker_before (pre rest : jsstring) : bool :=
  match pre with
  | [] => true
  | _ :: pre' => negb (marker_at (pre ++ rest)) && no_marker_before pre' rest
  end.

(** A segment of a reply in which a marker can be pointed at: the text
    before the marker, the code and the line of the marker, and what
    comes after that line. *)
Record segment := {
  before : jsstring;
  seg_code : jsstring;
  seg_line : jsstring;
  after : jsstring
}.

Definition segment_text (s : segment) : jsstring :=
  before s ++ msg (seg_code s) (seg_line s) ++ after s.

(** The marker pointed at is the first of the segment (no marker begins
    before it), its code is six code units of the token alphabet, and its
    line is the whole, non-empty, line after it. *)
Definition first_marker (s : segment) : Prop :=
  no_marker_before (before s) (msg (seg_code s) (seg_line s) ++ after s) = true
  ∧ length (seg_code s) = 6%nat ∧ forallb token_char (seg_code s) = true
  ∧ seg_line s ≠ [] ∧ forallb dot (seg_line s) = true
  ∧ at_line_end (after s) = true.

(** ** Sample data *)

(** A segment that opens with a comment and holds two markers. *)
Definition commented_segment : segment :=
  {| before := str "Note <1>:" ++ [LF];
     seg_code := str "ABC123"; seg_line := str "Bonjour";
     after := [LF] ++ msg (str "DEF456") (str "Monde") |}.

Definition sample_cue (from : Z) (c : string) (t : jsstring) : pnode :=
  {| item := Cue {| start := from; end_ := from + 1000; text := t; settings := None |};
     code := str c |}.

Definition hello_world : list pnode :=
  [sample_cue 0 "ABC123" (str "Hello"); sample_cue 1000 "DEF456" (str "World")].

Definition three_cues : list pnode :=
  [sample_cue 0 "ABC123" (str "a"); sample_cue 1000 "DEF456" (str "b");
   sample_cue 2000 "GHI789" (str "c")].

(** The messages of [hello_world]. *)
Definition hello_world_queue : list jsstring :=
  [msg (str "ABC123") (str "Hello"); msg (str "DEF456") (str "World")].

(** A cue of two lines. *)
Definition two_lines : list pnode :=
  [sample_cue 0 "ABC123" (str "Hello" ++ [LF] ++ str "World")].

(** A cue whose text begins with a space. *)
Definition indented : list pnode := [sample_cue 0 "ABC123" (str " Hello")].

(** A service that is down, and services that give a fixed answer: one
    choice, whose message has the reply as its content. *)
Definition service_down : nat → jsstring → completion := λ _ _, Rejected.
Definition service_says (reply : jsstring) : nat → jsstring → completion :=
  λ _ _, Choices [Some reply].

(** The service that answers with the payload of [hello_world_queue]. *)
Definition echo_hello_world : nat → jsstring → completion :=
  service_says (join separator hello_world_queue).

(** The configuration with a batch size of one. *)
Definition one_by_one : options :=
  {| batchSize := 1; language := str "en-us"; prompt := default_prompt |}.

(** A service whose completions have no choice. *)
Definition no_choices : nat → jsstring → completion := λ _ _, Choices [].

(** A service whose first reply carries a code that was not sent and
    whose later replies carry the code of the first cue of [hello_world]. *)
Definition crossed_replies : nat → jsstring → completion := λ k _,
  match k with
  | 0%nat => Choices [Some (msg (str "ZZZ999") (str "Rien"))]
  | _ => Choices [Some (msg (str "ABC123") (str "Salut"))]
  end.

(** The configuration with a batch size of minus five. *)
Definition negative_batch : options :=
  {| batchSize := -5; language := str "en-us"; prompt := default_prompt |}.

(** The texts, and the [code] fields, of what a run returns. *)
Definition texts_of (r : result (list onode)) : result (list (option jsstring)) :=
  match r with
  | Ok out => Ok ((λ o, node_text (out_node o)) <$> out)
  | Throw e => Throw e
  end.

Definition codes_of (r : result (list onode)) : result (list (option jsstring)) :=
  match r with
  | Ok out => Ok (out_code <$> out)
  | Throw e => Throw e
  end.

(** ** parseFile

    [nodes] is what [parseSync] returns for the content of the file. The
    nodes are given their codes in order, and every call of [randomCode]
    takes six values of [Math.random]: node [i] gets the draws [6 i] to
    [6 i + 5]. *)
Definition parseFile (nodes : list node) (rnd : nat → N) : list pnode :=
  imap (λ i n, {| item := n; code := randomCode 3 3 (λ j, rnd (6 * i + j)%nat) |})
       nodes.

(** ** More vocabulary *)

(** The first line of a text: what comes before its first line
    terminator. *)
Definition first_line (t : jsstring) : jsstring := take (run_length dot t) t.

(** The service gave nothing for the request: [getChatGPTAnswer] returns
    [undefined] (no completion, or a first choice without content), or
    the empty content. *)
Definition silent (service : nat → jsstring → completion) : Prop :=
  ∀ k prompt, getChatGPTAnswer (service k) prompt = Ok None
              ∨ getChatGPTAnswer (service k) prompt = Ok (Some []).

(** The pair read back from the message of a node: its code and the first
    line of its text, when that line is not empty. *)
Definition first_pair (p : pnode) : option (jsstring * jsstring) :=
  match item p with
  | Cue data =>
      if truthy (text data) && truthy (first_line (text data))
      then Some (code p, first_line (text data))
      else None
  | Header _ => None
  end.

(** The first place where [pat] occurs in [pre ++ rest] is not inside
    [pre]. *)
Fixpoint not_before (pat pre rest : jsstring) : bool :=
  match pre with
  | [] => true
  | _ :: pre' => negb (starts_with pat (pre ++ rest)) && not_before pat pre' rest
  end.

(** ** The name of the output file

    Of the default name only the part made from the language is modelled:
    [language.toLocaleLowerCase()], then the two replacements. The
    lower-casing of the platform is the parameter [lower]. *)

Definition is_lower (c : char) : bool := (97 <=? c) && (c <=? 122).

(** The class [[a-z0-9 -]], of which the first pattern is the negation. *)
Definition slug_keep (c : char) : bool :=
  is_lower c || is_digit c || (c =? 32) || (c =? 45).

(** A space or a hyphen: the alternation of the second pattern. *)
Definition space_or_hyphen (c : char) : bool := (c =? 32) || (c =? 45).

(** The first pattern, flag [g]: one code unit outside the class. *)
Definition outside_re : list term := [Rep 1 (λ c, negb (slug_keep c))].

(** The second pattern, flag [g]: the group of a space or a hyphen, once
    or more, greedy. Its capture is not used by the replacement, so the
    repetition is written as one occurrence followed by a starred one
    without the group. *)
Definition dashes_re : list term := [Rep 1 space_or_hyphen; Star space_or_hyphen].

Definition language_slug (lower : jsstring → jsstring) (language : jsstring)
  : jsstring :=
  replace_all dashes_re (λ _, [45]) None
    (replace_all outside_re (λ _, []) None (lower language) 0) 0.

(** Runs of spaces and hyphens each turned into one hyphen; [in_run]
    tells that the code unit before belongs to such a run. *)
Fixpoint collapse (s : jsstring) (in_run : bool) : jsstring :=
  match s with
  | [] => []
  | c :: s' =>
      if space_or_hyphen c
      then (if in_run then collapse s' true else 45 :: collapse s' true)
      else c :: collapse s' false
  end.

(** What the default template puts before the batch, for the language
    [l]. *)
Definition default_instruction (l : jsstring) : jsstring :=
  str "Translate the following text into " ++ l
  ++ str " but keep the 6 digit codes between < > intact:" ++ [LF; LF].

(** * Properties *)

(** ** Character classes *)

Lemma line_terminator_white_space c :
  is_line_terminator c = true → is_white_space c = true.
Proof. unfold is_white_space. intros ->. by rewrite !orb_true_r. Qed.

Lemma token_char_dot c : token_char c = true → dot c = true.
Proof.
  unfold token_char, is_upper, is_digit, dot, is_line_terminator.
  intros H. apply negb_true_iff.
  repeat (apply orb_false_intro); apply N.eqb_neq; intros ->; done.
Qed.

(** ** The matcher *)

Lemma run_length_app p l rest :
  forallb p l = true →
  run_length p (l ++ rest) = (length l + run_length p rest)%nat.
Proof.
  induction l as [|c l IH]; simpl; [done|].
  intros [-> H]%andb_prop. by rewrite IH.
Qed.

Lemma run_length_stop s : at_line_end s = true → run_length dot s = 0%nat.
Proof.
  destruct s as [|c s]; simpl; [done|]. unfold dot. by intros ->.
Qed.

Lemma run_length_forallb p s : forallb p (take (run_length p s) s) = true.
Proof.
  induction s as [|c s IH]; simpl; [done|].
  destruct (p c) eqn:E; simpl; [by rewrite E|done].
Qed.

Lemma run_length_end s : at_line_end (drop (run_length dot s) s) = true.
Proof.
  induction s as [|c s IH]; simpl; [done|].
  unfold dot at 1. by destruct (is_line_terminator c) eqn:E.
Qed.

Lemma backtrack_found k prev s n r :
  consumed (take n s) (k (prev_after prev (take n s)) (drop n s)) = Some r →
  backtrack k prev s n = Some r.
Proof. intros H. destruct n; simpl in *; by rewrite H. Qed.

Lemma backtrack_fewer k prev s n :
  consumed (take (S n) s) (k (prev_after prev (take (S n) s)) (drop (S n) s)) = None →
  backtrack k prev s (S n) = backtrack k prev s n.
Proof. intros H. cbn [backtrack]. by rewrite H. Qed.

Lemma consumed_inv chunk r chunks rest :
  consumed chunk r = Some (chunks, rest) →
  ∃ chunks', chunks = chunk :: chunks' ∧ r = Some (chunks', rest).
Proof.
  destruct r as [[chunks' rest']|]; simpl; intros H; simplify_eq. eauto.
Qed.

(** One equation per term of a pattern. *)
Lemma exec_Chr c re prev s :
  exec (Chr c :: re) prev (c :: s) = consumed [c] (exec re (Some c) s).
Proof. cbn [exec]. by rewrite N.eqb_refl. Qed.

Lemma exec_Chr_ne c re prev x s : x ≠ c → exec (Chr c :: re) prev (x :: s) = None.
Proof. intros H. cbn [exec]. by destruct (N.eqb_spec x c). Qed.

Lemma exec_Open re prev s : exec (Open :: re) prev s = consumed [] (exec re prev s).
Proof. done. Qed.

Lemma exec_Close re prev s : exec (Close :: re) prev s = consumed [] (exec re prev s).
Proof. done. Qed.

Lemma exec_Star p re prev s :
  exec (Star p :: re) prev s = backtrack (exec re) prev s (run_length p s).
Proof. done. Qed.

Lemma exec_Rep p re prev l s :
  forallb p l = true →
  exec (Rep (length l) p :: re) prev (l ++ s)
  = consumed l (exec re (prev_after prev l) s).
Proof.
  intros H. cbn [exec].
  by rewrite take_app_length, drop_app_length, Nat.eqb_refl, H.
Qed.

Lemma exec_Bol re prev s :
  at_line_start prev = true → exec (Bol :: re) prev s = consumed [] (exec re prev s).
Proof. intros H. cbn [exec]. by rewrite H. Qed.

Lemma exec_Bol_fail re prev s :
  at_line_start prev = false → exec (Bol :: re) prev s = None.
Proof. intros H. cbn [exec]. by rewrite H. Qed.

Lemma exec_Eol prev s :
  exec [Eol] prev s = if at_line_end s then Some ([[]], s) else None.
Proof. done. Qed.

(** The greedy star in last position takes the whole run. *)
Lemma exec_star_last p prev s :
  exec [Star p; Close] prev s
  = Some ([take (run_length p s) s; []], drop (run_length p s) s).
Proof. rewrite exec_Star. by apply backtrack_found. Qed.

Lemma exec_Chr_inv c re prev s r :
  exec (Chr c :: re) prev s = Some r →
  ∃ s', s = c :: s' ∧ consumed [c] (exec re (Some c) s') = Some r.
Proof.
  destruct s as [|x s]; cbn [exec]; [done|].
  destruct (N.eqb_spec x c) as [->|]; [eauto|done].
Qed.

Lemma exec_Rep_inv n p re prev s r :
  exec (Rep n p :: re) prev s = Some r →
  ∃ l s', s = l ++ s' ∧ length l = n ∧ forallb p l = true
    ∧ consumed l (exec re (prev_after prev l) s') = Some r.
Proof.
  cbn [exec]. destruct (_ && _) eqn:E; [|done].
  apply andb_prop in E as [Hlen Hp]. apply Nat.eqb_eq in Hlen.
  intros H. exists (take n s), (drop n s). by rewrite take_drop.
Qed.

(** ** The marker pattern *)

Lemma msg_unfold c t : msg c t = 60 :: c ++ 62 :: 10 :: t.
Proof. reflexivity. Qed.

Lemma captures_marker c t : captures marker_re (marker_chunks c t) None = [c; t].
Proof. reflexivity. Qed.

(** Where a marker stands, followed by a line of text, the pattern matches
    the marker and that line, up to the end of the line. *)
Lemma exec_marker prev c t rest :
  length c = 6%nat → forallb token_char c = true →
  forallb dot t = true → at_line_end rest = true →
  exec marker_re prev (msg c t ++ rest) = Some (marker_chunks c t, rest).
Proof.
  intros Hlen Hc Ht Hrest. rewrite msg_unfold. unfold marker_re.
  rewrite <- Hlen. cbn [app]. rewrite <- app_assoc. cbn [app].
  rewrite exec_Chr, exec_Open, exec_Rep, exec_Close by done.
  rewrite !exec_Chr, exec_Open, exec_star_last.
  rewrite run_length_app, run_length_stop, Nat.add_0_r by done.
  by rewrite take_app_length, drop_app_length.
Qed.

(** Splits off the chunk of the term just matched. *)
Ltac chunk H := apply consumed_inv in H as (? & -> & H).

(** Conversely a match of the pattern is a marker and the rest of the line
    that follows it. *)
Lemma exec_marker_inv prev s chunks rest :
  exec marker_re prev s = Some (chunks, rest) →
  ∃ c t, s = msg c t ++ rest ∧ chunks = marker_chunks c t
    ∧ length c = 6%nat ∧ forallb token_char c = true
    ∧ forallb dot t = true ∧ at_line_end rest = true.
Proof.
  unfold marker_re.
  intros (s1 & -> & H)%exec_Chr_inv.
  chunk H. rewrite exec_Open in H. chunk H.
  apply exec_Rep_inv in H as (c & s2 & -> & Hlen & Hc & H).
  chunk H. rewrite exec_Close in H. chunk H.
  apply exec_Chr_inv in H as (s3 & -> & H). chunk H.
  apply exec_Chr_inv in H as (s4 & -> & H). chunk H.
  rewrite exec_Open in H. chunk H.
  rewrite exec_star_last in H. simplify_eq.
  exists c, (take (run_length dot s4) s4). repeat split; try done.
  - rewrite msg_unfold. cbn [app]. rewrite <- app_assoc. cbn [app].
    by rewrite take_drop.
  - apply run_length_forallb.
  - apply run_length_end.
Qed.

Lemma search_found re prev s chunks rest :
  exec re prev s = Some (chunks, rest) → search re prev s = Some ([], chunks, rest).
Proof. intros H. destruct s; cbn [search]; by rewrite H. Qed.

Lemma search_pass re prev c s :
  exec re prev (c :: s) = None →
  search re prev (c :: s)
  = match search re (Some c) s with
    | Some (skipped, chunks, rest) => Some (c :: skipped, chunks, rest)
    | None => None
    end.
Proof. intros H. cbn [search]. by rewrite H. Qed.

Lemma prev_after_cons prev c l : prev_after prev (c :: l) = prev_after (Some c) l.
Proof. unfold prev_after. rewrite last_cons. by destruct (last l). Qed.

(** Where no marker begins the pattern does not match. *)
Lemma exec_marker_none prev s : marker_at s = false → exec marker_re prev s = None.
Proof.
  intros Hno. destruct (exec marker_re prev s) as [[chunks rest]|] eqn:E; [|done].
  apply exec_marker_inv in E as (c & t & -> & _ & Hlen & Hc & _).
  rewrite msg_unfold in Hno. cbn [app marker_at] in Hno.
  rewrite <- app_assoc, <- Hlen, take_app_length, drop_app_length in Hno.
  by rewrite Hc, !Nat.eqb_refl in Hno.
Qed.

Lemma no_bracket_no_marker pre rest : 60 ∉ pre → no_marker_before pre rest = true.
Proof.
  induction pre as [|c pre IH]; [done|].
  intros [Hc Hpre]%not_elem_of_cons. cbn [no_marker_before app marker_at].
  rewrite IH by done. by destruct (N.eqb_spec c 60).
Qed.

(** The search passes over the text in which no marker begins. *)
Lemma search_marker_skip prev pre s :
  no_marker_before pre s = true →
  search marker_re prev (pre ++ s)
  = match search marker_re (prev_after prev pre) s with
    | Some (skipped, chunks, rest) => Some (pre ++ skipped, chunks, rest)
    | None => None
    end.
Proof.
  revert prev. induction pre as [|c pre IH]; intros prev Hpre.
  - cbn [app]. by destruct (search _ _ _) as [[[??]?]|].
  - cbn [no_marker_before] in Hpre.
    apply andb_prop in Hpre as [Hc%negb_true_iff Hpre]. cbn [app].
    rewrite search_pass by (by apply exec_marker_none).
    rewrite IH, prev_after_cons by done.
    by destruct (search _ _ _) as [[[??]?]|].
Qed.

Lemma search_inv re prev s skipped chunks rest :
  search re prev s = Some (skipped, chunks, rest) →
  ∃ s', s = skipped ++ s'
    ∧ exec re (prev_after prev skipped) s' = Some (chunks, rest).
Proof.
  revert prev skipped. induction s as [|c s IH]; intros prev skipped; cbn [search].
  - destruct (exec re prev []) as [[??]|] eqn:E; [|done].
    intros ?; simplify_eq. by exists [].
  - destruct (exec re prev (c :: s)) as [[??]|] eqn:E.
    + intros ?; simplify_eq. by exists (c :: s).
    + destruct (search re (Some c) s) as [[[sk ch] r]|] eqn:Es; [|done].
      intros ?; simplify_eq. destruct (IH _ _ Es) as (s' & -> & H).
      exists s'. by rewrite prev_after_cons.
Qed.

(** ** The trimming pattern on plain lines *)

Lemma plain_inv l :
  plain l = true →
  ∃ c l', l = c :: l' ∧ is_white_space c = false ∧ forallb dot l = true.
Proof.
  destruct l as [|c l']; [done|]. unfold plain.
  intros [Hc Hl]%andb_prop. apply negb_true_iff in Hc. eauto.
Qed.

Lemma plain_dot t : plain t = true → t ≠ [] ∧ forallb dot t = true.
Proof. by intros (c & l' & -> & _ & H)%plain_inv. Qed.

Lemma prev_after_dot prev l :
  l ≠ [] → forallb dot l = true → at_line_start (prev_after prev l) = false.
Proof.
  revert prev. induction l as [|c l IH]; [done|]. intros prev _ H.
  apply andb_prop in H as [Hc Hl]. rewrite prev_after_cons.
  destruct l as [|d l]; [|by apply IH].
  simpl. by apply negb_true_iff.
Qed.

Lemma line_follows_end rest : line_follows rest → at_line_end rest = true.
Proof. by intros [->|(c & r & -> & _)]. Qed.

Lemma exec_trailing prev rest :
  line_follows rest →
  exec [Star is_white_space; Eol] prev rest = Some ([[]; []], rest).
Proof.
  intros [->|(c & r & -> & Hc)]; rewrite exec_Star.
  - by apply backtrack_found.
  - cbn [run_length]. rewrite Hc.
    change (is_white_space LF) with true. cbv iota.
    rewrite backtrack_fewer.
    + by apply backtrack_found.
    + cbn [take drop]. rewrite exec_Eol. cbn [at_line_end].
      destruct (is_line_terminator c) eqn:E; [|done].
      by rewrite (line_terminator_white_space _ E) in Hc.
Qed.

(** At the start of a plain line the pattern matches exactly that line. *)
Lemma exec_trim_plain prev l rest :
  at_line_start prev = true → plain l = true → line_follows rest →
  exec trim_re prev (l ++ rest) = Some ([[]; []; []; l; []; []; []], rest).
Proof.
  intros Hprev (c & l' & -> & Hc & Hl)%plain_inv Hrest. unfold trim_re.
  rewrite exec_Bol, exec_Star by done.
  cbn [app run_length]. rewrite Hc.
  rewrite (backtrack_found _ _ _ _ ([[]; []; c :: l'; []; []; []], rest)); [done|].
  cbn [take drop prev_after last]. rewrite exec_Open, exec_Star.
  change (c :: l' ++ rest) with ((c :: l') ++ rest).
  rewrite run_length_app, run_length_stop, Nat.add_0_r
    by auto using line_follows_end.
  rewrite (backtrack_found _ _ _ _ ([c :: l'; []; []; []], rest)); [done|].
  rewrite take_app_length, drop_app_length, exec_Close.
  by rewrite exec_trailing.
Qed.

(** ** The global replacement *)

Lemma replace_all_skip re sub prev a b :
  replace_all re sub prev (a ++ b) (length a)
  = replace_all re sub (prev_after prev a) b 0.
Proof.
  revert prev. induction a as [|c a IH]; intros prev; [done|].
  cbn [app length replace_all]. by rewrite IH, prev_after_cons.
Qed.

Lemma replace_all_match re sub prev m rest chunks :
  exec re prev (m ++ rest) = Some (chunks, rest) →
  concat chunks = m → m ≠ [] →
  replace_all re sub prev (m ++ rest) 0
  = sub chunks ++ replace_all re sub (prev_after prev m) rest 0.
Proof.
  intros H Hm Hne. destruct m as [|c m]; [done|].
  cbn [replace_all app]. cbn [app] in H. rewrite H, Hm. cbn [length].
  by rewrite replace_all_skip, prev_after_cons.
Qed.

Lemma replace_all_copy re sub prev c s :
  exec re prev (c :: s) = None →
  replace_all re sub prev (c :: s) 0 = c :: replace_all re sub (Some c) s 0.
Proof. intros H. cbn [replace_all]. by rewrite H. Qed.

Lemma replace_all_end re sub prev :
  exec re prev [] = None → replace_all re sub prev [] 0 = [].
Proof. intros H. cbn [replace_all]. by rewrite H. Qed.

Lemma join_cons sep l l' ls :
  join sep (l :: l' :: ls) = l ++ sep ++ join sep (l' :: ls).
Proof. done. Qed.

Lemma join_plain_head l ls :
  plain l = true → ∃ c r, join [LF] (l :: ls) = c :: r ∧ is_white_space c = false.
Proof.
  intros (c & l' & -> & Hc & _)%plain_inv.
  destruct ls; [by exists c, l'|]. rewrite join_cons. by eexists c, _.
Qed.

(** Lines that are all plain, joined by line feeds, go through the
    trimming replacement unchanged. *)
Lemma trim_plain_lines prev l ls :
  at_line_start prev = true →
  Forall (λ l, plain l = true) (l :: ls) →
  replace_all trim_re (dollar1 trim_re) prev (join [LF] (l :: ls)) 0
  = join [LF] (l :: ls).
Proof.
  revert prev l. induction ls as [|l' ls IH]; intros prev l Hprev Hall.
  - apply Forall_inv in Hall. cbn [join].
    destruct (plain_inv _ Hall) as (c & r & -> & Hc & Hdot).
    rewrite <- (app_nil_r (c :: r)) at 1.
    erewrite replace_all_match;
      [|by apply exec_trim_plain; [| |left]|cbn; by rewrite !app_nil_r|done].
    rewrite replace_all_end; [by rewrite app_nil_r|].
    apply exec_Bol_fail. by apply prev_after_dot.
  - apply Forall_cons in Hall as [Hl Hall]. rewrite join_cons.
    destruct (plain_inv _ Hl) as (c & r & -> & Hc & Hdot).
    destruct (join_plain_head l' ls) as (c' & r' & Hj & Hc');
      [by apply Forall_inv in Hall|].
    erewrite replace_all_match;
      [| apply exec_trim_plain; [done|done|]
       | cbn; by rewrite !app_nil_r | done].
    + cbn [app]. rewrite replace_all_copy.
      * by rewrite IH.
      * apply exec_Bol_fail. by apply prev_after_dot.
    + right. rewrite Hj. by exists c', r'.
Qed.

(** ** split and join *)

Lemma starts_with_app p s : starts_with p (p ++ s) = true.
Proof. induction p as [|a p IH]; [done|]. simpl. by rewrite N.eqb_refl. Qed.

Lemma split_go_skip sep a b cur :
  split_go sep (a ++ b) (length a) cur = split_go sep b 0 cur.
Proof. induction a as [|c a IH]; [done|]. apply IH. Qed.

(** A separator found at the current position closes the piece. *)
Lemma split_go_found sep s cur :
  sep ≠ [] →
  split_go sep (sep ++ s) 0 cur = reverse cur :: split_go sep s 0 [].
Proof.
  intros Hne. destruct sep as [|c sep'] eqn:E; [done|]. rewrite <- E.
  assert (H : starts_with sep (sep ++ s) = true) by apply starts_with_app.
  rewrite E in *. cbn [app split_go]. cbn [app] in H. rewrite H.
  cbn [length pred]. by rewrite split_go_skip.
Qed.

(** No separator starts at a code unit other than a line feed. *)
Lemma split_go_no_LF t rest cur :
  forallb dot t = true →
  split_go separator (t ++ rest) 0 cur
  = split_go separator rest 0 (reverse t ++ cur).
Proof.
  revert cur. induction t as [|c t IH]; intros cur H; [done|].
  apply andb_prop in H as [Hc Ht]. cbn [app split_go].
  replace (starts_with separator (c :: t ++ rest)) with false.
  - rewrite IH by done. by rewrite reverse_cons, <- app_assoc.
  - unfold separator. cbn [app starts_with].
    destruct (N.eqb_spec LF c) as [<-|]; done.
Qed.

(** A line that is followed by the end of the text or by a line terminator
    and begins like the line [p] is the line [p]. *)
Lemma starts_with_line p q t rest :
  forallb dot p = true → forallb dot t = true → at_line_end rest = true →
  starts_with (p ++ LF :: q) (t ++ rest) = true → t = p.
Proof.
  revert t. induction p as [|a p IH]; intros t Hp Ht Hrest.
  - destruct t as [|c t]; [done|]. cbn [app starts_with].
    apply andb_prop in Ht as [Hc _].
    destruct (N.eqb_spec LF c) as [<-|]; done.
  - apply andb_prop in Hp as [Ha Hp]. destruct t as [|c t].
    + destruct rest as [|c rest]; [done|]. cbn [app starts_with].
      destruct (N.eqb_spec a c) as [<-|]; [|done].
      cbn [at_line_end] in Hrest. unfold dot in Ha. by rewrite Hrest in Ha.
    + apply andb_prop in Ht as [Hc Ht]. cbn [app starts_with].
      destruct (N.eqb_spec a c) as [<-|]; [|done].
      intros H. f_equal. by apply IH.
Qed.

Lemma is_code_token c :
  is_code c = true → length c = 6%nat ∧ forallb token_char c = true.
Proof.
  unfold is_code. intros [[Hlen Hu]%andb_prop Hd]%andb_prop.
  apply Nat.eqb_eq in Hlen. split; [done|].
  rewrite <- (take_drop 3 c), forallb_app. apply andb_true_intro. split.
  - eapply forallb_forall. intros x Hx. unfold token_char.
    by rewrite (proj1 (forallb_forall _ _) Hu x Hx).
  - eapply forallb_forall. intros x Hx. unfold token_char.
    rewrite (proj1 (forallb_forall _ _) Hd x Hx). apply orb_true_r.
Qed.

Lemma forallb_impl {A} (p q : A → bool) l :
  (∀ x, p x = true → q x = true) → forallb p l = true → forallb q l = true.
Proof.
  intros Hpq H. apply forallb_forall. intros x Hx.
  apply Hpq. by apply (proj1 (forallb_forall _ _) H).
Qed.

(** Inside an echo-safe item no separator begins. *)
Lemma split_go_item c t rest cur :
  echo_safe c t → at_line_end rest = true →
  split_go separator (msg c t ++ rest) 0 cur
  = split_go separator rest 0 (reverse (msg c t) ++ cur).
Proof.
  intros (Hc & Ht & Hne) Hrest.
  apply is_code_token in Hc as [_ Hc].
  apply (forallb_impl _ dot) in Hc; [|apply token_char_dot].
  apply plain_dot in Ht as [_ Ht].
  replace (msg c t) with ((60 :: c ++ [62]) ++ LF :: t)
    by (rewrite msg_unfold; cbn [app]; by rewrite <- app_assoc).
  rewrite <- app_assoc. rewrite split_go_no_LF.
  2:{ cbn [forallb]. rewrite forallb_app, Hc. done. }
  cbn [app split_go].
  replace (starts_with separator (LF :: t ++ rest)) with false.
  - rewrite split_go_no_LF by done. f_equal.
    change (60 :: (c ++ [62]) ++ LF :: t) with ((60 :: c ++ [62]) ++ LF :: t).
    by rewrite (reverse_app (60 :: c ++ [62])), (reverse_cons t), <- !app_assoc.
  - symmetry. apply not_true_is_false. unfold separator.
    cbn [app starts_with]. rewrite N.eqb_refl. cbn [andb].
    intros H. apply Hne. by eapply (starts_with_line _ []), H.
Qed.

Lemma split_join queue :
  Forall (λ m, ∃ c t, m = msg c t ∧ echo_safe c t) queue → queue ≠ [] →
  split separator (join separator queue) = queue.
Proof.
  unfold split. induction queue as [|m queue IH]; [done|].
  intros [(c & t & -> & Hm) Hall]%Forall_cons _.
  destruct queue as [|m' queue].
  - cbn [join]. rewrite <- (app_nil_r (msg c t)) at 1.
    rewrite split_go_item by done. cbn [split_go].
    by rewrite app_nil_r, reverse_involutive.
  - rewrite join_cons, split_go_item by done.
    rewrite split_go_found by done.
    by rewrite app_nil_r, reverse_involutive, IH.
Qed.

(** The payload of a batch of echo-safe items is made of plain lines. *)
Lemma payload_lines queue :
  Forall (λ m, ∃ c t, m = msg c t ∧ echo_safe c t) queue → queue ≠ [] →
  ∃ l ls, join separator queue = join [LF] (l :: ls)
    ∧ Forall (λ l, plain l = true) (l :: ls).
Proof.
  induction queue as [|m queue IH]; [done|].
  intros [(c & t & -> & Hc & Ht & Hne) Hall]%Forall_cons _.
  assert (Hhd : plain (60 :: c ++ [62]) = true).
  { apply is_code_token in Hc as [_ Hc].
    apply (forallb_impl _ dot) in Hc; [|apply token_char_dot].
    unfold plain. cbn [forallb]. by rewrite forallb_app, Hc. }
  assert (Hmsg : ∀ rest, msg c t ++ rest = (60 :: c ++ [62]) ++ [LF] ++ t ++ rest).
  { intros rest. rewrite msg_unfold. cbn [app]. by rewrite <- !app_assoc. }
  destruct queue as [|m' queue].
  - exists (60 :: c ++ [62]), [t]. split.
    + cbn [join]. rewrite <- (app_nil_r (msg c t)), Hmsg. by rewrite app_nil_r.
    + by repeat constructor.
  - destruct IH as (l & ls & Hj & Hpl); [done..|].
    exists (60 :: c ++ [62]), (t :: sentinel :: l :: ls). split.
    + rewrite join_cons, Hmsg, Hj, !join_cons. unfold separator, sentinel.
      by rewrite <- !app_assoc.
    + repeat (apply Forall_cons; split; [done|]). done.
Qed.

(** What [translateQueue] returns once [getChatGPTAnswer] has returned,
    and when it throws. *)
Lemma translateQueue_answer o openai queue translation :
  getChatGPTAnswer openai (render_prompt o queue) = Ok translation →
  translateQueue o openai queue
  = Ok match translation with
       | Some t =>
           if truthy t
           then split separator (replace_all trim_re (dollar1 trim_re) None t 0)
           else queue
       | None => queue
       end.
Proof.
  intros Hans. unfold translateQueue. rewrite Hans. cbn [mbind result_bind].
  destruct translation as [t|]; [|done]. by destruct (truthy t).
Qed.

Lemma translateQueue_throws o openai queue e :
  translateQueue o openai queue = Throw e
  ↔ getChatGPTAnswer openai (render_prompt o queue) = Throw e.
Proof.
  unfold translateQueue.
  destruct (getChatGPTAnswer openai (render_prompt o queue)) as [[t|]|e'];
    cbn [mbind result_bind];
    [destruct (truthy t); split; discriminate|split; discriminate|split; intros [= ->]; reflexivity].
Qed.

(** [getChatGPTAnswer] throws when the completion has no choice, and only
    then; it never throws anything but a [TypeError]. *)
Lemma getChatGPTAnswer_throws openai prompt e :
  getChatGPTAnswer openai prompt = Throw e
  ↔ openai prompt = Choices [] ∧ e = TypeError.
Proof.
  unfold getChatGPTAnswer. destruct (openai prompt) as [|[|choice choices]].
  - by split; [|intros [? _]].
  - split; [by intros [= <-]|by intros [_ ->]].
  - by split; [|intros [? _]].
Qed.

Lemma translateQueue_returns o openai queue :
  openai (render_prompt o queue) ≠ Choices [] →
  ∃ segs, translateQueue o openai queue = Ok segs.
Proof.
  intros Hsome.
  destruct (getChatGPTAnswer openai (render_prompt o queue)) as [t|e] eqn:E.
  - rewrite (translateQueue_answer _ _ _ _ E). by eexists.
  - by apply getChatGPTAnswer_throws in E as [? _].
Qed.

(** A reply that repeats the payload of an echo-safe batch is cut back
    into the items of the batch. *)
Lemma translateQueue_echo o answer queue :
  Forall (λ m, ∃ c t, m = msg c t ∧ echo_safe c t) queue →
  getChatGPTAnswer answer (render_prompt o queue) = Ok (Some (join separator queue)) →
  translateQueue o answer queue = Ok queue.
Proof.
  intros Hall Hans. rewrite (translateQueue_answer _ _ _ _ Hans). f_equal.
  destruct (truthy (join separator queue)) eqn:E; [|done].
  assert (Hne : queue ≠ []) by (by intros ->).
  destruct (payload_lines queue) as (l & ls & Hj & Hpl); [done..|].
  rewrite Hj, trim_plain_lines, <- Hj by done. by apply split_join.
Qed.

(** ** randomCode *)

Lemma randomCode_is_code rnd : is_code (randomCode 3 3 rnd) = true.
Proof.
  assert (Hu : ∀ x, is_upper (65 + x mod 26) = true).
  { intros x. pose proof (N.mod_lt x 26 ltac:(done)) as H.
    revert H. generalize (x mod 26). intros y Hy.
    unfold is_upper. apply andb_true_intro. split; apply N.leb_le; lia. }
  assert (Hd : ∀ x, is_digit (48 + x mod 10) = true).
  { intros x. pose proof (N.mod_lt x 10 ltac:(done)) as H.
    revert H. generalize (x mod 10). intros y Hy.
    unfold is_digit. apply andb_true_intro. split; apply N.leb_le; lia. }
  unfold is_code, randomCode. cbn. by rewrite !Hu, !Hd.
Qed.

(** ** getMessageQueue *)

(** Inside the array, with a positive batch size, [slice] is the chunk of
    [b] elements that starts at [i * b]. *)
Lemma js_slice_chunk {A} (l : list A) (i : nat) (b : Z) :
  (1 ≤ b)%Z →
  js_slice l (Z.of_nat i * b) ((Z.of_nat i + 1) * b)
  = take (Z.to_nat b) (drop (i * Z.to_nat b) l).
Proof.
  intros Hb. unfold js_slice.
  destruct (Z.ltb_spec (Z.of_nat i * b) 0) as [|_]; [nia|].
  destruct (Z.ltb_spec ((Z.of_nat i + 1) * b) 0) as [|_]; [nia|].
  destruct (decide (length l ≤ i * Z.to_nat b)%nat) as [Hge|Hlt].
  - rewrite !Z.min_r by nia. rewrite Z.sub_diag, Nat2Z.id.
    rewrite (drop_ge l (i * _)) by done. by rewrite take_nil.
  - rewrite (Z.min_l (Z.of_nat i * b)) by nia.
    replace (Z.to_nat (Z.of_nat i * b)) with (i * Z.to_nat b)%nat by nia.
    set (l' := drop (i * Z.to_nat b) l).
    assert (Hl' : length l' = (length l - i * Z.to_nat b)%nat) by apply length_drop.
    destruct (Z.min_spec ((Z.of_nat i + 1) * b) (Z.of_nat (length l)))
      as [[? ->]|[? ->]].
    + f_equal. nia.
    + rewrite !take_ge; [done|nia..].
Qed.

Lemma concat_chunks {A} (l : list A) (b k : nat) :
  concat ((λ i, take b (drop (i * b) l)) <$> seq 0 k) = take (k * b) l.
Proof.
  induction k as [|k IH]; [done|].
  rewrite seq_S, fmap_app, concat_app, IH. cbn [fmap list_fmap concat].
  rewrite app_nil_r, take_take_drop. f_equal. lia.
Qed.

(** The number of batches: the quotient rounded up. *)
Lemma ceil_div_bounds (n b : Z) :
  (0 ≤ n)%Z → (1 ≤ b)%Z →
  let k := (- ((- n) `div` b))%Z in
  (0 ≤ k ≤ n)%Z ∧ (b * (k - 1) < n ≤ b * k)%Z.
Proof.
  intros Hn Hb k.
  pose proof (Z.div_mod (- n) b ltac:(lia)) as Hdm.
  pose proof (Z.mod_pos_bound (- n) b ltac:(lia)) as Hmod.
  assert (b * k < n + b ∧ n ≤ b * k)%Z as [H1 H2] by (unfold k; nia).
  assert (0 ≤ k)%Z by nia. repeat split; nia.
Qed.

Lemma length_omap_le {A B} (f : A → option B) l :
  (length (omap f l) ≤ length l)%nat.
Proof.
  induction l as [|x l IH]; [done|].
  cbn. destruct (f x); cbn; lia.
Qed.

(** With a batch size of at least one the queue is the list of the
    successive chunks of the messages. *)
Lemma getMessageQueue_chunks parsed (b : Z) :
  (1 ≤ b)%Z → (Z.of_nat (length parsed) < 2 ^ 32)%Z →
  getMessageQueue parsed b
  = Ok ((λ i, take (Z.to_nat b) (drop (i * Z.to_nat b) (omap message parsed)))
          <$> seq 0 (Z.to_nat (- ((- Z.of_nat (length (omap message parsed))) `div` b)))).
Proof.
  intros Hb Hlen. unfold getMessageQueue, math_ceil_div, js_Array.
  pose proof (length_omap_le message parsed) as Hle.
  set (cues := omap message parsed) in *.
  destruct (ceil_div_bounds (Z.of_nat (length cues)) b) as [Hk _]; [lia..|].
  destruct (Z.eqb_spec b 0) as [|_]; [lia|].
  destruct (Z.leb_spec 0 (- (- Z.of_nat (length cues)) `div` b)) as [_|]; [|lia].
  destruct (Z.ltb_spec (- (- Z.of_nat (length cues)) `div` b) (2 ^ 32)) as [_|]; [|lia].
  cbn [andb mbind result_bind]. f_equal.
  rewrite (imap_seq_0 _ (λ index, js_slice cues (Z.of_nat index * b) ((Z.of_nat index + 1) * b))).
  rewrite length_replicate. apply list_fmap_ext. intros i j _.
  by apply js_slice_chunk.
Qed.

Lemma getMessageQueue_concat parsed (b : Z) messages :
  (1 ≤ b)%Z → (Z.of_nat (length parsed) < 2 ^ 32)%Z →
  getMessageQueue parsed b = Ok messages →
  concat messages = omap message parsed.
Proof.
  intros Hb Hlen Hq. rewrite getMessageQueue_chunks in Hq by done.
  injection Hq as <-.
  pose proof (length_omap_le message parsed) as Hle.
  destruct (ceil_div_bounds (Z.of_nat (length (omap message parsed))) b)
    as [Hk Hceil]; [lia..|].
  rewrite concat_chunks. apply take_ge. nia.
Qed.

Lemma message_inv (parsed : list pnode) m :
  m ∈ omap message parsed →
  ∃ p d, p ∈ parsed ∧ item p = Cue d ∧ text d ≠ [] ∧ m = msg (code p) (text d).
Proof.
  intros (p & Hp & Hm)%list_elem_of_omap. unfold message in Hm.
  destruct (item p) as [|d] eqn:Ed; [done|].
  destruct (truthy (text d)) eqn:Et; [|done]. simplify_eq.
  exists p, d. repeat split; try done. intros Hn. by rewrite Hn in Et.
Qed.

(** ** translatedToCues *)

(** A segment whose first marker is followed by a non-empty line gives
    the pair of that marker and line, whatever comes after the line. *)
Lemma translatedToCue_marker pre c t rest :
  no_marker_before pre (msg c t ++ rest) = true →
  length c = 6%nat → forallb token_char c = true →
  t ≠ [] → forallb dot t = true → at_line_end rest = true →
  translatedToCue (pre ++ msg c t ++ rest) = Ok (Some (c, t)).
Proof.
  intros Hpre Hlen Hc Hne Ht Hrest. unfold translatedToCue, first_match.
  rewrite search_marker_skip by done.
  rewrite (search_found _ _ _ (marker_chunks c t) rest) by by apply exec_marker.
  rewrite captures_marker. cbn [lookup list_lookup].
  destruct c as [|? c]; [done|]. by destruct t.
Qed.

(** A pair the callback returns is a marker found in the segment together
    with the rest of the line that follows it. *)
Lemma translatedToCue_inv seg c t :
  translatedToCue seg = Ok (Some (c, t)) →
  ∃ pre rest, seg = pre ++ msg c t ++ rest
    ∧ length c = 6%nat ∧ forallb token_char c = true
    ∧ t ≠ [] ∧ forallb dot t = true ∧ at_line_end rest = true.
Proof.
  unfold translatedToCue, first_match.
  destruct (search marker_re None seg) as [[[pre chunks] rest]|] eqn:E; [|done].
  apply search_inv in E as (s' & -> & E).
  apply exec_marker_inv in E as (c' & t' & -> & -> & Hlen & Hc & Ht & Hrest).
  rewrite captures_marker. cbn [lookup list_lookup].
  destruct (negb (truthy c') || negb (truthy t')) eqn:Et; [done|].
  intros ?; simplify_eq. exists pre, rest. repeat split; try done.
  intros ->. by rewrite orb_true_r in Et.
Qed.

(** A segment without any opening bracket makes the callback throw. *)
Lemma translatedToCue_no_marker seg : 60 ∉ seg → translatedToCue seg = Throw TypeError.
Proof.
  intros H. unfold translatedToCue, first_match.
  rewrite <- (app_nil_r seg), search_marker_skip
    by by apply no_bracket_no_marker.
  done.
Qed.

Lemma translatedToCues_cons seg segs :
  translatedToCues (seg :: segs)
  = (c ← translatedToCue seg; cs ← translatedToCues segs;
     Ok (match c with Some p => p :: cs | None => cs end)).
Proof. done. Qed.

Lemma translatedToCues_inv segs pairs :
  translatedToCues segs = Ok pairs →
  (length pairs ≤ length segs)%nat
  ∧ ∀ p, p ∈ pairs → ∃ seg, seg ∈ segs ∧ translatedToCue seg = Ok (Some p).
Proof.
  revert pairs. induction segs as [|seg segs IH]; intros pairs.
  - cbn. intros ?; simplify_eq. split; [done|]. by intros p ?%elem_of_nil.
  - rewrite translatedToCues_cons.
    destruct (translatedToCue seg) as [c|] eqn:Ec; [|done].
    destruct (translatedToCues segs) as [cs|]; [|done].
    destruct (IH cs eq_refl) as [Hlen Hin].
    cbn. intros ?; simplify_eq. split.
    + destruct c; cbn; lia.
    + intros p Hp. destruct c as [p'|].
      * apply elem_of_cons in Hp as [->|Hp].
        -- exists seg. split; [left|done].
        -- destruct (Hin p Hp) as (seg' & ? & ?). exists seg'. split; [by right|done].
      * destruct (Hin p Hp) as (seg' & ? & ?). exists seg'. split; [by right|done].
Qed.

(** A message whose code is well formed and whose text is one line is
    read back as the pair it was made of. *)
Lemma translatedToCues_messages (parsed : list pnode) :
  (∀ p d, p ∈ parsed → item p = Cue d → text d ≠ [] →
     is_code (code p) = true ∧ forallb dot (text d) = true) →
  translatedToCues (omap message parsed) = Ok (omap pair_of parsed).
Proof.
  induction parsed as [|q parsed IH]; intros Hall; [done|].
  cbn [omap list_omap]. unfold message at 1, pair_of at 1.
  assert (IH' : translatedToCues (omap message parsed) = Ok (omap pair_of parsed)).
  { apply IH. intros p d Hp. apply Hall. by right. }
  destruct (item q) as [|d] eqn:Ed; [done|].
  destruct (truthy (text d)) eqn:Et; [|done].
  destruct (Hall q d) as [[Hlen Hc]%is_code_token Hdot]; [left|done|by intros Hn; rewrite Hn in Et|].
  rewrite translatedToCues_cons.
  rewrite <- (app_nil_r (msg _ _)), <- (app_nil_l (msg _ _ ++ _)).
  rewrite translatedToCue_marker; [|done|try done..].
  - by rewrite IH'.
  - intros Hn. by rewrite Hn in Et.
Qed.

(** ** Segments with and without a marker *)

Lemma starts_with_inv p s : starts_with p s = true → s = p ++ drop (length p) s.
Proof.
  revert s. induction p as [|a p IH]; intros s; [done|].
  destruct s as [|b s]; [done|]. cbn [starts_with].
  intros [->%N.eqb_eq H]%andb_prop. cbn [app length drop]. f_equal. by apply IH.
Qed.

(** Where a marker begins the pattern matches: the marker and the rest of
    the line after it. *)
Lemma marker_at_exec prev s :
  marker_at s = true →
  ∃ c rest', s = msg c rest'
    ∧ length c = 6%nat ∧ forallb token_char c = true
    ∧ exec marker_re prev s
      = Some (marker_chunks c (first_line rest'), drop (run_length dot rest') rest').
Proof.
  destruct s as [|ch s]; [done|]. cbn [marker_at].
  intros [[[->%N.eqb_eq Hlen%Nat.eqb_eq]%andb_prop Hc]%andb_prop Hs]%andb_prop.
  apply starts_with_inv in Hs. cbn [length app] in Hs.
  exists (take 6 s), (drop 2 (drop 6 s)).
  assert (Hmsg : 60 :: s = msg (take 6 s) (drop 2 (drop 6 s))).
  { rewrite msg_unfold. f_equal. rewrite <- (take_drop 6 s) at 1. by rewrite Hs at 1. }
  repeat split; try done.
  rewrite Hmsg at 1.
  rewrite <- (take_drop (run_length dot (drop 2 (drop 6 s))) (drop 2 (drop 6 s))) at 1.
  replace (msg (take 6 s) (take (run_length dot (drop 2 (drop 6 s))) (drop 2 (drop 6 s))
            ++ drop (run_length dot (drop 2 (drop 6 s))) (drop 2 (drop 6 s))))
    with (msg (take 6 s) (first_line (drop 2 (drop 6 s)))
            ++ drop (run_length dot (drop 2 (drop 6 s))) (drop 2 (drop 6 s))).
  - apply exec_marker; [done|done|apply run_length_forallb|apply run_length_end].
  - rewrite !msg_unfold. cbn [app]. by rewrite <- app_assoc.
Qed.

Lemma search_marker_None prev s :
  search marker_re prev s = None ↔ no_marker_before s [] = true.
Proof.
  revert prev. induction s as [|c s IH]; intros prev; [done|].
  cbn [search no_marker_before]. rewrite app_nil_r.
  destruct (marker_at (c :: s)) eqn:Hm.
  - destruct (marker_at_exec prev _ Hm) as (? & ? & _ & _ & _ & ->). done.
  - rewrite (exec_marker_none _ _ Hm). cbn [negb andb]. rewrite <- (IH (Some c)).
    destruct (search marker_re (Some c) s) as [[[??]?]|]; [|done].
    split; intros; done.
Qed.

Lemma translatedToCue_throws seg :
  translatedToCue seg = Throw TypeError ↔ no_marker_before seg [] = true.
Proof.
  rewrite <- (search_marker_None None). unfold translatedToCue, first_match.
  destruct (search marker_re None seg) as [[[??]?]|]; [|done].
  split; [|done]. by repeat case_match.
Qed.

Lemma translatedToCue_not_RangeError seg : translatedToCue seg ≠ Throw RangeError.
Proof. unfold translatedToCue. by repeat case_match. Qed.

(** One segment without a marker is enough for a [TypeError]. *)
Lemma translatedToCues_throws segs :
  translatedToCues segs = Throw TypeError
  ↔ Exists (λ seg, no_marker_before seg [] = true) segs.
Proof.
  induction segs as [|seg segs IH].
  - split; [done|]. by intros ?%Exists_nil.
  - rewrite translatedToCues_cons, Exists_cons, <- IH, <- translatedToCue_throws.
    pose proof (translatedToCue_not_RangeError seg).
    destruct (translatedToCue seg) as [c|[]] eqn:E; [|done|].
    + cbn. destruct (translatedToCues segs) as [cs|e]; cbn.
      * split; [done|]. by intros [|].
      * split; [by right|]. by intros [|].
    + cbn. split; [by left|done].
Qed.

(** When every segment holds a marker the parser returns. *)
Lemma translatedToCues_returns segs :
  Forall (λ seg, no_marker_before seg [] = false) segs →
  ∃ pairs, translatedToCues segs = Ok pairs.
Proof.
  induction 1 as [|seg segs Hseg _ [pairs IH]]; [by exists []|].
  rewrite translatedToCues_cons, IH.
  destruct (translatedToCue seg) as [c|[]] eqn:E.
  - by eexists.
  - by destruct (translatedToCue_not_RangeError seg).
  - apply translatedToCue_throws in E. congruence.
Qed.

(** ** The map of the translations *)

Lemma foldl_insert_lookup (m : gmap (list N) (list N)) pairs k :
  foldl (λ m p, <[p.1 := p.2]> m) m pairs !! k
  = match recovered pairs k with Some t => Some t | None => m !! k end.
Proof.
  revert m. induction pairs as [|[c t] pairs IH]; intros m; [done|].
  cbn [foldl recovered]. rewrite IH.
  destruct (recovered pairs k); [done|].
  cbn. rewrite lookup_insert. by destruct (decide (c = k)).
Qed.

Lemma to_Map_lookup pairs k : to_Map pairs !! k = recovered pairs k.
Proof.
  unfold to_Map. rewrite foldl_insert_lookup.
  by destruct (recovered pairs k).
Qed.

Lemma recovered_None pairs k : recovered pairs k = None ↔ k ∉ pairs.*1.
Proof.
  induction pairs as [|[c t] pairs IH]; cbn [recovered fmap list_fmap fst].
  - split; [intros _; apply not_elem_of_nil|done].
  - rewrite not_elem_of_cons, <- IH.
    destruct (recovered pairs k).
    + split; [done|]. by intros [_ ?].
    + destruct (decide (c = k)) as [->|Hne].
      * split; [done|]. by intros [? _].
      * split; [|done]. intros _. split; [congruence|done].
Qed.

Lemma recovered_elem pairs k t : recovered pairs k = Some t → (k, t) ∈ pairs.
Proof.
  induction pairs as [|[c t'] pairs IH]; cbn [recovered]; [done|].
  destruct (recovered pairs k) as [t''|].
  - intros ?; simplify_eq. right. by apply IH.
  - destruct (decide (c = k)) as [->|]; [|done].
    intros ?; simplify_eq. left.
Qed.

(** ** Reassembly *)

Lemma output_lookup parsed translations i p :
  parsed !! i = Some p →
  prepareOutput (applyTranslationCues parsed translations) !! i
  = Some (prepareOutput1
            {| source := p; translated := recovered translations (code p) |}).
Proof.
  intros H. unfold prepareOutput, applyTranslationCues.
  rewrite !list_lookup_fmap, H. cbn. by rewrite to_Map_lookup.
Qed.

Lemma output_length (parsed : list pnode) translations :
  length (prepareOutput (applyTranslationCues parsed translations)) = length parsed.
Proof. unfold prepareOutput, applyTranslationCues. by rewrite !length_fmap. Qed.

Lemma prepareOutput1_cases p tr :
  (∃ c t, item p = Cue c ∧ tr = Some t ∧ t ≠ []
     ∧ prepareOutput1 {| source := p; translated := tr |} = Rebuilt (Cue (with_text c t)))
  ∨ (¬ (∃ c t, item p = Cue c ∧ tr = Some t ∧ t ≠ [])
     ∧ prepareOutput1 {| source := p; translated := tr |}
       = Kept {| source := p; translated := tr |}).
Proof.
  unfold prepareOutput1. cbn [translated source].
  destruct tr as [t|]; [|right; split; [by intros (?&?&?&?&?)|done]].
  destruct (item p) as [d|c] eqn:E; [right; split; [by intros (?&?&?&?&?)|done]|].
  destruct t as [|x t]; cbn [truthy].
  - right. split; [|done]. intros (?&?&?&?&?). by simplify_eq.
  - left. by exists c, (x :: t).
Qed.

Lemma applyTranslationCues_nil (parsed : list pnode) :
  prepareOutput (applyTranslationCues parsed [])
  = (λ p, Kept {| source := p; translated := None |}) <$> parsed.
Proof.
  unfold prepareOutput, applyTranslationCues.
  rewrite <- list_fmap_compose. apply list_fmap_ext. intros i p _. cbn.
  by rewrite lookup_empty.
Qed.

Lemma elem_of_pairs (parsed : list pnode) k t :
  (k, t) ∈ omap pair_of parsed →
  ∃ p d, p ∈ parsed ∧ item p = Cue d ∧ code p = k ∧ text d = t ∧ t ≠ [].
Proof.
  intros (p & Hp & Hpair)%list_elem_of_omap. unfold pair_of in Hpair.
  destruct (item p) as [|d] eqn:Ed; [done|].
  destruct (truthy (text d)) eqn:Et; [|done]. simplify_eq.
  exists p, d. repeat split; try done. intros Hnil. by rewrite Hnil in Et.
Qed.

Lemma elem_of_cue_codes (parsed : list pnode) p d :
  p ∈ parsed → item p = Cue d → code p ∈ cue_codes parsed.
Proof.
  intros Hp Ed. apply list_elem_of_omap. exists p. by rewrite Ed.
Qed.

Lemma cue_codes_cons q (parsed : list pnode) :
  cue_codes (q :: parsed)
  = match item q with
    | Cue _ => code q :: cue_codes parsed
    | Header _ => cue_codes parsed
    end.
Proof. unfold cue_codes. cbn [omap list_omap]. by destruct (item q). Qed.

Lemma code_inj (parsed : list pnode) p p' d d' :
  NoDup (cue_codes parsed) → p ∈ parsed → p' ∈ parsed →
  item p = Cue d → item p' = Cue d' → code p = code p' → p = p'.
Proof.
  induction parsed as [|q parsed IH]; [by intros _ ?%elem_of_nil|].
  rewrite cue_codes_cons. intros Hnd Hp Hp' Ed Ed' Hcode.
  apply elem_of_cons in Hp as [->|Hp]; apply elem_of_cons in Hp' as [->|Hp'].
  - done.
  - rewrite Ed in Hnd. apply NoDup_cons in Hnd as [Hq _].
    destruct Hq. rewrite Hcode. by eapply elem_of_cue_codes.
  - rewrite Ed' in Hnd. apply NoDup_cons in Hnd as [Hq _].
    destruct Hq. rewrite <- Hcode. by eapply elem_of_cue_codes.
  - apply IH; try done. destruct (item q); [done|]. by apply NoDup_cons in Hnd as [_ ?].
Qed.

(** When every cue with text gets its own text back under its own code,
    and the codes differ from each other, the output is the input. *)
Lemma reassemble_identity (parsed : list pnode) :
  NoDup (cue_codes parsed) →
  out_node <$> prepareOutput (applyTranslationCues parsed (omap pair_of parsed))
  = item <$> parsed.
Proof.
  intros Hnd. apply list_eq. intros i.
  rewrite !list_lookup_fmap.
  destruct (parsed !! i) as [p|] eqn:Hp.
  - rewrite (output_lookup _ _ _ _ Hp). cbn. f_equal.
    unfold prepareOutput1. cbn [translated source].
    destruct (recovered _ _) as [t|] eqn:Er; [|done].
    destruct (item p) as [|d] eqn:Ed; [done|].
    apply recovered_elem in Er.
    apply elem_of_pairs in Er as (p' & d' & Hp' & Ed' & Hcode & Ht & Hne).
    assert (p' = p) as ->.
    { eapply code_inj; [done|done| |done|done|done].
      by eapply list_elem_of_lookup_2. }
    rewrite Ed in Ed'. simplify_eq.
    destruct (truthy (text d')); cbn; [|by rewrite Ed].
    by destruct d'.
  - unfold prepareOutput, applyTranslationCues.
    by rewrite !list_lookup_fmap, Hp.
Qed.

(** ** translateQueues and main *)

Lemma translateQueues_from_fst o service k queues :
  (∀ i queue, queues !! i = Some queue →
     translateQueue o (service (k + i)%nat) queue = Ok queue) →
  (translateQueues_from o service k queues).1 = Ok (concat queues).
Proof.
  revert k. induction queues as [|queue queues IH]; intros k Hall; [done|].
  cbn [translateQueues_from concat].
  pose proof (Hall 0%nat queue eq_refl) as Hhead.
  rewrite Nat.add_0_r in Hhead. rewrite Hhead.
  destruct (translateQueues_from o service (S k) queues) as [lines sent] eqn:E.
  cbn [fst]. replace lines with (translateQueues_from o service (S k) queues).1
    by (by rewrite E).
  rewrite IH; [done|].
  intros i q Hq. specialize (Hall (S i) q Hq).
  by rewrite Nat.add_succ_r in Hall.
Qed.

Lemma translateQueues_fst o service queues :
  (∀ i queue, queues !! i = Some queue →
     translateQueue o (service i) queue = Ok queue) →
  (translateQueues o service queues).1 = Ok (concat queues).
Proof. intros H. by apply translateQueues_from_fst. Qed.

(** When every queue gives its lines, the loop returns them all and every
    prompt was sent. *)
Lemma translateQueues_from_Forall (P : list N → Prop) o service k queues :
  (∀ i queue, queues !! i = Some queue →
     ∃ segs, translateQueue o (service (k + i)%nat) queue = Ok segs
       ∧ Forall P segs) →
  ∃ lines, translateQueues_from o service k queues
           = (Ok lines, render_prompt o <$> queues)
    ∧ Forall P lines.
Proof.
  revert k. induction queues as [|queue queues IH]; intros k Hall.
  { exists []. by split; [|constructor]. }
  cbn [translateQueues_from].
  destruct (Hall 0%nat queue eq_refl) as (segs & Hsegs & HP).
  rewrite Nat.add_0_r in Hsegs. rewrite Hsegs.
  destruct (IH (S k)) as (lines & -> & HPl).
  { intros i q Hq. destruct (Hall (S i) q Hq) as (r & Hr & HPr).
    exists r. by rewrite Nat.add_succ_comm. }
  exists (segs ++ lines). split; [done|]. by apply Forall_app.
Qed.

(** The loop ends at the first queue whose request throws: the prompts up
    to that one were sent, the others were not. *)
Lemma translateQueues_from_Throw o service k queues i queue e :
  queues !! i = Some queue →
  translateQueue o (service (k + i)%nat) queue = Throw e →
  (∀ j q, (j < i)%nat → queues !! j = Some q →
     ∃ r, translateQueue o (service (k + j)%nat) q = Ok r) →
  translateQueues_from o service k queues
  = (Throw e, render_prompt o <$> take (S i) queues).
Proof.
  revert k i. induction queues as [|q0 queues IH]; intros k i Hi He Hbefore;
    [done|].
  cbn [translateQueues_from]. destruct i as [|i].
  - injection Hi as ->. rewrite Nat.add_0_r in He. by rewrite He.
  - destruct (Hbefore 0%nat q0) as [r Hr]; [lia|done|].
    rewrite Nat.add_0_r in Hr. rewrite Hr.
    rewrite (IH (S k) i); [done|done|by rewrite Nat.add_succ_comm|].
    intros j q Hj Hq. destruct (Hbefore (S j) q) as [r' Hr']; [lia|done|].
    exists r'. by rewrite Nat.add_succ_comm.
Qed.

(** Whatever the loop throws is a [TypeError]. *)
Lemma translateQueues_from_TypeError o service k queues e :
  (translateQueues_from o service k queues).1 = Throw e → e = TypeError.
Proof.
  revert k. induction queues as [|queue queues IH]; intros k; [done|].
  cbn [translateQueues_from].
  destruct (translateQueue o (service k) queue) as [queueResult|e'] eqn:Eq.
  - specialize (IH (S k)).
    destruct (translateQueues_from o service (S k) queues) as [[rest|e'] sent];
      [done|].
    cbn [fst mbind result_bind]. intros [= <-]. by apply IH.
  - cbn [fst]. intros [= <-].
    by apply translateQueue_throws, getChatGPTAnswer_throws in Eq as [_ ->].
Qed.

(** The run, once the queue is planned: what is returned is decided by
    the loop over the queues and by [translatedToCues] on the collected
    lines. *)
Lemma main_planned o service parsed messages :
  getMessageQueue parsed (batchSize o) = Ok messages →
  main o service parsed
  = (translated ← (translateQueues o service messages).1;
     translatedCues ← translatedToCues translated;
     Ok (prepareOutput (applyTranslationCues parsed translatedCues)),
     (translateQueues o service messages).2).
Proof.
  intros Hq. unfold main. rewrite Hq.
  by destruct (translateQueues o service messages) as [translated sent].
Qed.

(** ** Runs in which every cue gets its own text back *)

Lemma elem_of_concat {A} (x : A) l ls : x ∈ l → l ∈ ls → x ∈ concat ls.
Proof.
  intros Hx Hl. apply list_elem_of_In, in_concat.
  exists l. split; by apply list_elem_of_In.
Qed.

Section identity_runs.
Context (o : options) (service : nat → jsstring → completion).
Context (parsed : list pnode) (messages : list (list jsstring)).

Hypothesis batch_size_positive : (1 ≤ batchSize o)%Z.
Hypothesis array_length : (Z.of_nat (length parsed) < 2 ^ 32)%Z.
Hypothesis planned : getMessageQueue parsed (batchSize o) = Ok messages.

(** The codes of the cues differ from each other, every code sent is well
    formed and every text sent is one line. *)
Hypothesis distinct_codes : NoDup (cue_codes parsed).
Hypothesis one_line_each :
  ∀ p d, p ∈ parsed → item p = Cue d → text d ≠ [] →
    is_code (code p) = true ∧ forallb dot (text d) = true.

(** If every queue comes back as it was sent, the run returns the nodes
    it was given. *)
Lemma identity_run :
  (∀ k queue, messages !! k = Some queue →
     translateQueue o (service k) queue = Ok queue) →
  ∃ out, (main o service parsed).1 = Ok out ∧ out_node <$> out = item <$> parsed.
Proof.
  intros Hsame.
  pose proof (getMessageQueue_concat _ _ _ batch_size_positive array_length planned)
    as Hconcat.
  rewrite (main_planned _ _ _ _ planned), translateQueues_fst, Hconcat by done.
  cbn [fst mbind result_bind].
  rewrite translatedToCues_messages by done. cbn [mbind result_bind].
  eexists. split; [done|]. by apply reassemble_identity.
Qed.

(** When the service is down the run returns the nodes it was given. *)
Lemma fail_open_single_line :
  (∀ k prompt, service k prompt = Rejected) →
  ∃ out, (main o service parsed).1 = Ok out ∧ out_node <$> out = item <$> parsed.
Proof.
  intros Hdown. apply identity_run.
  intros k queue _. unfold translateQueue, getChatGPTAnswer. by rewrite Hdown.
Qed.

End identity_runs.

(** ** Two runs on [hello_world] *)

(** Batches of two, and a reply that carries both markers with their
    translations. *)
Example translated_run :
  texts_of
    (main {| batchSize := 2; language := str "fr"; prompt := default_prompt |}
       (service_says (join separator
          [msg (str "ABC123") (str "Bonjour"); msg (str "DEF456") (str "Monde")]))
       hello_world).1
  = Ok [Some (str "Bonjour"); Some (str "Monde")].
Proof. vm_compute. reflexivity. Qed.

(** The same input when the service is down. *)
Example untranslated_run :
  texts_of (main default_options service_down hello_world).1
  = Ok [Some (str "Hello"); Some (str "World")].
Proof. vm_compute. reflexivity. Qed.

(** * The claims *)

(** ** C1: round trip *)

(** C1 as the code has it. Take a run with a batch size of at least one
    in which the codes of the cues differ from each other and every text
    sent is echo-safe: one line, not starting with white space, other than
    the sentinel line, under a code of three letters and three digits. If
    every reply is exactly the payload of its batch, the run returns the
    nodes it was given, each cue with its original text. *)
Theorem round_trip o service (parsed : list pnode) messages :
  (1 ≤ batchSize o)%Z → (Z.of_nat (length parsed) < 2 ^ 32)%Z →
  getMessageQueue parsed (batchSize o) = Ok messages →
  NoDup (cue_codes parsed) →
  (∀ p d, p ∈ parsed → item p = Cue d → text d ≠ [] →
     echo_safe (code p) (text d)) →
  (∀ k queue, messages !! k = Some queue →
     getChatGPTAnswer (service k) (render_prompt o queue)
     = Ok (Some (join separator queue))) →
  ∃ out, (main o service parsed).1 = Ok out ∧ out_node <$> out = item <$> parsed.
Proof.
  intros Hb Hlen Hq Hnd Hsafe Hecho.
  apply (identity_run o service parsed messages); try done.
  - intros p d Hp Ed Hne. destruct (Hsafe p d Hp Ed Hne) as (Hc & Ht & _).
    split; [done|]. by apply plain_dot in Ht as [_ ?].
  - intros k queue Hk. apply translateQueue_echo; [|by apply Hecho].
    apply Forall_forall. intros m Hm.
    pose proof (getMessageQueue_concat _ _ _ Hb Hlen Hq) as Hconcat.
    assert (Hin : m ∈ omap message parsed).
    { rewrite <- Hconcat. eapply elem_of_concat; [done|].
      by eapply list_elem_of_lookup_2. }
    apply message_inv in Hin as (p & d & Hp & Ed & Hne & ->).
    exists (code p), (text d). split; [done|]. by apply Hsafe.
Qed.

(** Witness of the statement on C1: the two cues of [hello_world] and a
    service that repeats their payload. *)
Lemma round_trip_witness :
  (1 ≤ batchSize default_options)%Z
  ∧ (Z.of_nat (length hello_world) < 2 ^ 32)%Z
  ∧ getMessageQueue hello_world (batchSize default_options) = Ok [hello_world_queue]
  ∧ NoDup (cue_codes hello_world)
  ∧ (∀ p d, p ∈ hello_world → item p = Cue d → text d ≠ [] →
       echo_safe (code p) (text d))
  ∧ (∀ k queue, [hello_world_queue] !! k = Some queue →
       getChatGPTAnswer (echo_hello_world k) (render_prompt default_options queue)
       = Ok (Some (join separator queue)))
  ∧ ∃ out, (main default_options echo_hello_world hello_world).1 = Ok out
      ∧ out_node <$> out = item <$> hello_world.
Proof.
  assert (H1 : (1 ≤ batchSize default_options)%Z) by (cbn; lia).
  assert (H2 : (Z.of_nat (length hello_world) < 2 ^ 32)%Z) by (cbn; lia).
  assert (H3 : getMessageQueue hello_world (batchSize default_options)
               = Ok [hello_world_queue]) by reflexivity.
  assert (H4 : NoDup (cue_codes hello_world)).
  { apply (bool_decide_unpack _). vm_compute. exact I. }
  assert (H5 : ∀ p d, p ∈ hello_world → item p = Cue d → text d ≠ [] →
                 echo_safe (code p) (text d)).
  { intros p d Hp Ed _. unfold hello_world in Hp.
    apply elem_of_cons in Hp as [->|Hp];
      [|apply elem_of_cons in Hp as [->|Hp]; [|by apply elem_of_nil in Hp]];
      injection Ed as <-; (split; [reflexivity|split; [reflexivity|]]);
      vm_compute; discriminate. }
  assert (H6 : ∀ k queue, [hello_world_queue] !! k = Some queue →
                 getChatGPTAnswer (echo_hello_world k)
                   (render_prompt default_options queue)
                 = Ok (Some (join separator queue))).
  { intros [|k] queue Hk; [|destruct k; discriminate Hk].
    injection Hk as <-. reflexivity. }
  repeat (split; [assumption|]).
  exact (round_trip default_options echo_hello_world hello_world
           [hello_world_queue] H1 H2 H3 H4 H5 H6).
Defined.

(** Counterexample to C1: the text of the cue begins with a space, the
    reply is exactly the payload of the batch, and the cue comes out
    without the space. *)
Lemma leading_space_lost :
  getMessageQueue indented (batchSize default_options)
    = Ok [[msg (str "ABC123") (str " Hello")]]
  ∧ texts_of (main default_options
                (service_says (join separator [msg (str "ABC123") (str " Hello")]))
                indented).1
    = Ok [Some (str "Hello")]
  ∧ (λ p, node_text (item p)) <$> indented = [Some (str " Hello")].
Proof. repeat split; vm_compute; reflexivity. Qed.

(** With the default prompt the same holds when the reply repeats the
    whole prompt, instruction included. *)
Example whole_prompt_round_trip :
  texts_of (main default_options (λ _ prompt, Choices [Some prompt]) hello_world).1
  = Ok [Some (str "Hello"); Some (str "World")].
Proof. vm_compute. reflexivity. Qed.

(** Why the statement asks what it asks: a text that is the sentinel line,
    a text of white space only, and two cues under one code. *)
Example sentinel_text_throws :
  getMessageQueue
    [sample_cue 0 "ABC123" sentinel; sample_cue 1000 "DEF456" (str "World")]
    (batchSize default_options)
    = Ok [[msg (str "ABC123") sentinel; msg (str "DEF456") (str "World")]]
  ∧ (main default_options
       (service_says (join separator
          [msg (str "ABC123") sentinel; msg (str "DEF456") (str "World")]))
       [sample_cue 0 "ABC123" sentinel; sample_cue 1000 "DEF456" (str "World")]).1
    = Throw TypeError.
Proof. split; vm_compute; reflexivity. Qed.

Example blank_text_throws :
  (main default_options
     (service_says (join separator [msg (str "ABC123") (str " ")]))
     [sample_cue 0 "ABC123" (str " ")]).1
  = Throw TypeError.
Proof. vm_compute. reflexivity. Qed.

Example colliding_codes_share_text :
  texts_of
    (main default_options
       (service_says (join separator
          [msg (str "ABC123") (str "Hello"); msg (str "ABC123") (str "World")]))
       [sample_cue 0 "ABC123" (str "Hello"); sample_cue 1000 "ABC123" (str "World")]).1
  = Ok [Some (str "World"); Some (str "World")].
Proof. vm_compute. reflexivity. Qed.

(** ** C2: the service is down *)

(** C2 on the code: the service is down for every request, and the cue of
    two lines comes out with its first line only. *)
Theorem service_down_cuts_lines :
  texts_of (main default_options service_down two_lines).1
    = Ok [Some (str "Hello")]
  ∧ (λ p, node_text (item p)) <$> two_lines
    = [Some (str "Hello" ++ [LF] ++ str "World")].
Proof. split; vm_compute; reflexivity. Qed.

(** ** C3: replies without markers *)

(** C3 on the code: a reply without any marker makes the run throw. *)
Theorem reply_without_marker_throws :
  translatedToCues [str "Sorry, I cannot translate this."] = Throw TypeError
  ∧ (main default_options (service_says (str "Sorry, I cannot translate this."))
       hello_world).1 = Throw TypeError.
Proof. split; vm_compute; reflexivity. Qed.

(** ** C4: markers recovered from a reply *)

(** C4 as the code has it. Each segment of a reply gives one pair: that
    of the first marker of the segment and the line after it. What comes
    after that line in the same segment, further markers included, adds
    nothing. *)
Theorem first_marker_per_segment (segs : list segment) :
  Forall first_marker segs →
  translatedToCues (segment_text <$> segs)
  = Ok ((λ s, (seg_code s, seg_line s)) <$> segs).
Proof.
  induction segs as [|s segs IH]; [done|].
  intros [(Hpre & Hlen & Hc & Hne & Hdot & Hrest) Hall]%Forall_cons.
  cbn [fmap list_fmap]. rewrite translatedToCues_cons.
  assert (Hs : translatedToCue (segment_text s) = Ok (Some (seg_code s, seg_line s)))
    by by apply translatedToCue_marker.
  rewrite Hs. cbn. by rewrite (IH Hall).
Qed.

(** Witness of the statement on C4: one segment with a comment, then two
    markers. *)
Lemma first_marker_per_segment_witness :
  Forall first_marker [commented_segment]
  ∧ translatedToCues (segment_text <$> [commented_segment])
    = Ok ((λ s, (seg_code s, seg_line s)) <$> [commented_segment]).
Proof.
  assert (H : Forall first_marker [commented_segment]).
  { apply Forall_cons. split; [|constructor].
    unfold first_marker, commented_segment. cbn [before seg_code seg_line after].
    split; [reflexivity|].
    split; [reflexivity|]. split; [reflexivity|].
    split; [vm_compute; discriminate|]. split; reflexivity. }
  split; [exact H|]. exact (first_marker_per_segment _ H).
Defined.

(** Counterexample to C4: the reply to [hello_world] carries both markers
    in one segment, the separator line having been dropped, and only the
    first pair is recovered. *)
Lemma two_markers_one_pair :
  (translated ←
     translateQueue default_options
       (λ _, Choices [Some (msg (str "ABC123") (str "Bonjour") ++ [LF]
                            ++ msg (str "DEF456") (str "Monde"))])
       hello_world_queue;
   translatedToCues translated)
  = Ok [(str "ABC123", str "Bonjour")].
Proof. vm_compute. reflexivity. Qed.

(** ** C5: length and order *)

(** C5. For every sequence of nodes and every list of recovered pairs the
    output has the length of the input and follows its order: the i-th
    output element comes from the i-th node. A header node is handed over
    with its data as it is; a cue keeps its start, its end and its
    settings, and its text is either its own or the text recovered for
    its code. *)
Theorem output_length_and_order (parsed : list pnode) translations :
  length (prepareOutput (applyTranslationCues parsed translations)) = length parsed
  ∧ Forall2 (λ p o,
       match item p with
       | Header d => out_node o = Header d
       | Cue c =>
           ∃ t, out_node o = Cue (with_text c t)
             ∧ (t = text c ∨ recovered translations (code p) = Some t)
       end)
     parsed (prepareOutput (applyTranslationCues parsed translations)).
Proof.
  split; [apply output_length|].
  apply Forall2_same_length_lookup_2; [by rewrite output_length|].
  intros i p o Hp Ho. rewrite (output_lookup _ _ _ _ Hp) in Ho. simplify_eq.
  destruct (prepareOutput1_cases p (recovered translations (code p)))
    as [(c & t & Ec & Er & _ & ->)|[_ ->]]; cbn [out_node source].
  - rewrite Ec. exists t. split; [done|by right].
  - destruct (item p) as [d|c]; [done|].
    exists (text c). split; [by destruct c|by left].
Qed.

(** ** C6: the token in the output *)

(** C6 as the code has it. The element put out for a node is one of two
    things. If the node is a cue and a non-empty text was recovered for
    its code, the element is a new object without [code] and [translated]
    fields, whose text is exactly the recovered text. Otherwise it is the
    object [applyTranslationCues] made, with its [code] field, and its
    node is the input node. *)
Theorem token_field_of_output (parsed : list pnode) translations i p :
  parsed !! i = Some p →
  ∃ o, prepareOutput (applyTranslationCues parsed translations) !! i = Some o
    ∧ ((∃ c t, item p = Cue c ∧ recovered translations (code p) = Some t ∧ t ≠ []
          ∧ o = Rebuilt (Cue (with_text c t)) ∧ out_code o = None)
       ∨ (¬ (∃ c t, item p = Cue c ∧ recovered translations (code p) = Some t ∧ t ≠ [])
          ∧ out_code o = Some (code p) ∧ out_node o = item p)).
Proof.
  intros Hp. eexists. split; [by apply output_lookup|].
  destruct (prepareOutput1_cases p (recovered translations (code p)))
    as [(c & t & Ec & Er & Hne & ->)|[Hno ->]].
  - left. by exists c, t.
  - right. by repeat split.
Qed.

(** Witness of the statement on C6: the second cue of [hello_world] when
    only the first code has a recovered text. *)
Lemma token_field_of_output_witness :
  hello_world !! 1%nat = Some (sample_cue 1000 "DEF456" (str "World"))
  ∧ ∃ o,
      prepareOutput (applyTranslationCues hello_world [(str "ABC123", str "Bonjour")])
        !! 1%nat = Some o
      ∧ ((∃ c t, item (sample_cue 1000 "DEF456" (str "World")) = Cue c
            ∧ recovered [(str "ABC123", str "Bonjour")]
                (code (sample_cue 1000 "DEF456" (str "World"))) = Some t
            ∧ t ≠ [] ∧ o = Rebuilt (Cue (with_text c t)) ∧ out_code o = None)
         ∨ (¬ (∃ c t, item (sample_cue 1000 "DEF456" (str "World")) = Cue c
                 ∧ recovered [(str "ABC123", str "Bonjour")]
                     (code (sample_cue 1000 "DEF456" (str "World"))) = Some t
                 ∧ t ≠ [])
            ∧ out_code o = Some (code (sample_cue 1000 "DEF456" (str "World")))
            ∧ out_node o = item (sample_cue 1000 "DEF456" (str "World")))).
Proof.
  split; [reflexivity|].
  apply (token_field_of_output hello_world [(str "ABC123", str "Bonjour")] 1).
  reflexivity.
Defined.

(** Counterexample to C6: the reply puts the token of the first cue in
    its text line and leaves the second cue out. The token is in the text
    put out for the first cue, and the element put out for the second cue
    has its [code] field. *)
Lemma token_reaches_output :
  texts_of (main default_options
              (service_says (msg (str "ABC123") (str "<ABC123> Bonjour")))
              hello_world).1
    = Ok [Some (str "<ABC123> Bonjour"); Some (str "World")]
  ∧ occurs (str "ABC123") (str "<ABC123> Bonjour") = true
  ∧ codes_of (main default_options
                (service_says (msg (str "ABC123") (str "<ABC123> Bonjour")))
                hello_world).1
    = Ok [None; Some (str "DEF456")].
Proof. repeat split; vm_compute; reflexivity. Qed.

(** ** C7: the partition into batches *)

(** C7. For every batch size of at least one, [getMessageQueue] returns
    [k] batches where [k] is the number [n] of messages divided by the
    batch size and rounded up, [(n + batchSize - 1) / batchSize], which is
    the least [k] with [n <= batchSize * k];
    every batch but the last holds exactly [batchSize] messages, no batch
    is empty or longer, and the batches in order, put end to end, are the
    messages in their original order. *)
Theorem getMessageQueue_partition parsed (b : Z) :
  (1 ≤ b)%Z → (Z.of_nat (length parsed) < 2 ^ 32)%Z →
  ∃ queues, getMessageQueue parsed b = Ok queues
    ∧ Z.of_nat (length queues)
      = ((Z.of_nat (length (omap message parsed)) + b - 1) `div` b)%Z
    ∧ (b * (Z.of_nat (length queues) - 1) < Z.of_nat (length (omap message parsed))
       ≤ b * Z.of_nat (length queues))%Z
    ∧ (∀ i queue, queues !! i = Some queue → (S i < length queues)%nat →
         Z.of_nat (length queue) = b)
    ∧ (∀ i queue, queues !! i = Some queue →
         (1 ≤ Z.of_nat (length queue) ≤ b)%Z)
    ∧ concat queues = omap message parsed.
Proof.
  intros Hb Hlen. eexists. split; [by apply getMessageQueue_chunks|].
  pose proof (length_omap_le message parsed) as Hle.
  set (cues := omap message parsed) in *.
  destruct (ceil_div_bounds (Z.of_nat (length cues)) b) as [Hk Hceil]; [lia..|].
  set (k := (- (- Z.of_nat (length cues)) `div` b)%Z) in *.
  rewrite length_fmap, length_seq, Z2Nat.id by lia.
  assert (Hget : ∀ i queue,
    ((λ i, take (Z.to_nat b) (drop (i * Z.to_nat b) cues)) <$> seq 0 (Z.to_nat k)) !! i
      = Some queue →
    (i < Z.to_nat k)%nat
    ∧ length queue = (Z.to_nat b `min` (length cues - i * Z.to_nat b))%nat).
  { intros i queue Hi. rewrite list_lookup_fmap in Hi.
    destruct (seq 0 (Z.to_nat k) !! i) as [j|] eqn:Hj; [|done].
    apply lookup_seq in Hj as [-> ?]. cbn in Hi. simplify_eq.
    by rewrite length_take, length_drop. }
  split; [|split; [done|split; [|split]]].
  - apply (Z.div_unique_pos _ b k (Z.of_nat (length cues) + b - 1 - b * k)); lia.
  - intros i queue [? Hq]%Hget Hlast. rewrite Hq. nia.
  - intros i queue [? Hq]%Hget. rewrite Hq. nia.
  - rewrite concat_chunks. apply take_ge. nia.
Qed.

(** Witness of C7: three cues with text in batches of two. *)
Lemma getMessageQueue_partition_witness :
  (1 ≤ 2)%Z ∧ (Z.of_nat (length three_cues) < 2 ^ 32)%Z
  ∧ ∃ queues, getMessageQueue three_cues 2 = Ok queues
      ∧ Z.of_nat (length queues)
        = ((Z.of_nat (length (omap message three_cues)) + 2 - 1) `div` 2)%Z
      ∧ (2 * (Z.of_nat (length queues) - 1)
         < Z.of_nat (length (omap message three_cues))
         ≤ 2 * Z.of_nat (length queues))%Z
      ∧ (∀ i queue, queues !! i = Some queue → (S i < length queues)%nat →
           Z.of_nat (length queue) = 2%Z)
      ∧ (∀ i queue, queues !! i = Some queue →
           (1 ≤ Z.of_nat (length queue) ≤ 2)%Z)
      ∧ concat queues = omap message three_cues.
Proof.
  split; [lia|]. split; [cbn; lia|].
  apply (getMessageQueue_partition three_cues 2); [lia|cbn; lia].
Defined.

(** ** C8: batch sizes below one *)

(** C8 as the code has it. Nothing checks the batch size at entry. With a
    batch size below one the planner either throws a [RangeError] while it
    batches (the batch size is zero, or there are at least as many
    messages as its absolute value), or plans no batch at all, in which
    case the run returns every node untranslated. In both cases no
    request is sent. *)
Theorem batch_size_below_one o service (parsed : list pnode) :
  (batchSize o < 1)%Z →
  main o service parsed
  = if decide (batchSize o = 0
               ∨ - batchSize o ≤ Z.of_nat (length (omap message parsed)))%Z
    then (Throw RangeError, [])
    else (Ok ((λ p, Kept {| source := p; translated := None |}) <$> parsed), []).
Proof.
  intros Hb. unfold main, getMessageQueue, math_ceil_div.
  set (n := Z.of_nat (length (omap message parsed))).
  assert (Hn : (0 ≤ n)%Z) by (unfold n; lia).
  destruct (Z.eqb_spec (batchSize o) 0) as [Hz|Hz].
  { rewrite decide_True by (by left). done. }
  pose proof (Z.div_mod (- n) (batchSize o) Hz) as Hdm.
  pose proof (Z.mod_neg_bound (- n) (batchSize o) ltac:(lia)) as Hmod.
  unfold js_Array. case_decide as Hd.
  - destruct Hd as [?|Hd]; [done|].
    assert (- (- n) `div` batchSize o < 0)%Z by nia.
    destruct (Z.leb_spec 0 (- (- n) `div` batchSize o)) as [|_]; [lia|]. done.
  - assert ((- n) `div` batchSize o = 0)%Z as -> by nia.
    change ((0 <=? - 0)%Z && (- 0 <? 2 ^ 32)%Z) with true. cbv iota.
    change (Z.to_nat (- 0)) with 0%nat.
    cbn [replicate mbind result_bind imap].
    unfold translateQueues.
    cbn [translateQueues_from translatedToCues mbind result_bind].
    by rewrite applyTranslationCues_nil.
Qed.

(** Witness of the statement on C8. *)
Lemma batch_size_below_one_witness :
  (batchSize negative_batch < 1)%Z
  ∧ main negative_batch echo_hello_world hello_world
    = if decide (batchSize negative_batch = 0
                 ∨ - batchSize negative_batch
                   ≤ Z.of_nat (length (omap message hello_world)))%Z
      then (Throw RangeError, [])
      else (Ok ((λ p, Kept {| source := p; translated := None |}) <$> hello_world), []).
Proof.
  split; [cbn; lia|].
  apply (batch_size_below_one negative_batch echo_hello_world hello_world).
  cbn; lia.
Defined.

(** Counterexample to C8: with a batch size of minus five the run of
    [hello_world] is not rejected; it returns both cues untranslated and
    sends nothing. *)
Lemma negative_batch_size_accepted :
  (batchSize negative_batch < 1)%Z
  ∧ texts_of (main negative_batch echo_hello_world hello_world).1
    = Ok [Some (str "Hello"); Some (str "World")]
  ∧ (main negative_batch echo_hello_world hello_world).2 = [].
Proof. split; [cbn; lia|]. split; vm_compute; reflexivity. Qed.

(** ** C9: partial recovery *)

(** C9 as the code has it. The pairs recovered from the replies are put
    in one map for the whole run. Take a run in which every request has
    returned and every segment of the lines obtained for a batch holds a
    marker. Then the run returns one element per node: a cue whose code
    is among the pairs recovered in the run, whichever reply they came
    from, gets the text recovered for that code, that of the last such
    pair; every node whose code is not among them is returned as it was,
    and so is every header. *)
Theorem partial_recovery o service (parsed : list pnode) messages :
  getMessageQueue parsed (batchSize o) = Ok messages →
  (∀ k queue, messages !! k = Some queue →
     ∃ segs, translateQueue o (service k) queue = Ok segs
       ∧ Forall (λ seg, no_marker_before seg [] = false) segs) →
  ∃ lines pairs out,
    (translateQueues o service messages).1 = Ok lines
    ∧ translatedToCues lines = Ok pairs
    ∧ (main o service parsed).1 = Ok out
    ∧ Forall2 (λ p o,
         (code p ∉ pairs.*1 → out_node o = item p)
         ∧ (∀ c, item p = Cue c → code p ∈ pairs.*1 →
              ∃ t, recovered pairs (code p) = Some t ∧ (code p, t) ∈ pairs
                ∧ out_node o = Cue (with_text c t))
         ∧ (∀ d, item p = Header d → out_node o = Header d))
       parsed out.
Proof.
  intros Hq Hall.
  destruct (translateQueues_from_Forall _ o service 0 messages Hall)
    as (lines & Hlines & Hmarked).
  destruct (translatedToCues_returns _ Hmarked) as [pairs Hpairs].
  exists lines, pairs. rewrite (main_planned _ _ _ _ Hq).
  unfold translateQueues. rewrite Hlines. cbn [fst mbind result_bind].
  rewrite Hpairs. cbn [mbind result_bind].
  eexists. split; [done|]. split; [done|]. split; [done|].
  apply translatedToCues_inv in Hpairs as [_ Hinv].
  apply Forall2_same_length_lookup_2; [by rewrite output_length|].
  intros i p ono Hp Ho. rewrite (output_lookup _ _ _ _ Hp) in Ho. simplify_eq.
  destruct (prepareOutput1_cases p (recovered pairs (code p)))
    as [(c & t & Ec & Er & Hne & ->)|[Hno ->]]; cbn [out_node source].
  - split; [|split].
    + intros Hnot%recovered_None. by rewrite Hnot in Er.
    + intros c' Ec' _. rewrite Ec in Ec'. simplify_eq.
      exists t. by split; [|split; [apply recovered_elem|]].
    + intros d Ed. by rewrite Ec in Ed.
  - split; [done|split; [|done]].
    intros c Ec Hin. destruct (recovered pairs (code p)) as [t|] eqn:Er.
    + destruct Hno. exists c, t. repeat split; try done.
      apply recovered_elem, Hinv in Er as (seg & _ & Hseg).
      by apply translatedToCue_inv in Hseg as (_ & _ & _ & _ & _ & ? & _).
    + by apply recovered_None in Er.
Qed.

(** Witness of the statement on C9: a batch of two cues and a reply that
    carries the first code only. *)
Lemma partial_recovery_witness :
  getMessageQueue hello_world (batchSize default_options) = Ok [hello_world_queue]
  ∧ (∀ k queue, [hello_world_queue] !! k = Some queue →
       ∃ segs,
         translateQueue default_options
           (service_says (msg (str "ABC123") (str "Bonjour")) k) queue = Ok segs
         ∧ Forall (λ seg, no_marker_before seg [] = false) segs)
  ∧ ∃ lines pairs out,
      (translateQueues default_options
         (service_says (msg (str "ABC123") (str "Bonjour"))) [hello_world_queue]).1
      = Ok lines
      ∧ translatedToCues lines = Ok pairs
      ∧ (main default_options (service_says (msg (str "ABC123") (str "Bonjour")))
           hello_world).1 = Ok out
      ∧ Forall2 (λ p o,
           (code p ∉ pairs.*1 → out_node o = item p)
           ∧ (∀ c, item p = Cue c → code p ∈ pairs.*1 →
                ∃ t, recovered pairs (code p) = Some t ∧ (code p, t) ∈ pairs
                  ∧ out_node o = Cue (with_text c t))
           ∧ (∀ d, item p = Header d → out_node o = Header d))
         hello_world out.
Proof.
  assert (H1 : getMessageQueue hello_world (batchSize default_options)
               = Ok [hello_world_queue]) by reflexivity.
  assert (H2 : ∀ k queue, [hello_world_queue] !! k = Some queue →
            ∃ segs,
              translateQueue default_options
                (service_says (msg (str "ABC123") (str "Bonjour")) k) queue
              = Ok segs
              ∧ Forall (λ seg, no_marker_before seg [] = false) segs).
  { intros [|k] queue Hk; [|destruct k; discriminate Hk].
    injection Hk as <-. exists [msg (str "ABC123") (str "Bonjour")].
    split; [vm_compute; reflexivity|].
    apply Forall_cons. split; [vm_compute; reflexivity|constructor]. }
  split; [exact H1|]. split; [exact H2|].
  exact (partial_recovery default_options
           (service_says (msg (str "ABC123") (str "Bonjour")))
           hello_world [hello_world_queue] H1 H2).
Defined.

(** Counterexample to C9: the two cues of [hello_world] are sent one by
    one. The reply to the first batch carries no pair for the code sent
    in it, the reply to the second batch carries that code, and the cue
    of the first batch comes out with the text of the second reply. *)
Lemma reply_of_another_batch :
  getMessageQueue hello_world (batchSize one_by_one)
    = Ok [[msg (str "ABC123") (str "Hello")]; [msg (str "DEF456") (str "World")]]
  ∧ (translated ← translateQueue one_by_one (crossed_replies 0)
                    [msg (str "ABC123") (str "Hello")];
     translatedToCues translated)
    = Ok [(str "ZZZ999", str "Rien")]
  ∧ texts_of (main one_by_one crossed_replies hello_world).1
    = Ok [Some (str "Salut"); Some (str "World")].
Proof. repeat split; vm_compute; reflexivity. Qed.

(** A reply that carries the first code and then a segment without marker
    does not give a partial result: the run throws, as for any segment
    without marker. *)
Example half_marked_reply_throws :
  (main default_options
     (service_says (msg (str "ABC123") (str "Bonjour") ++ separator ++ str "Monde"))
     hello_world).1 = Throw TypeError.
Proof. vm_compute. reflexivity. Qed.

(** ** C10: recovered texts are single lines *)

(** C10. Every text the reply parser recovers is a single line: it holds
    no line feed, and no other line terminator either. Hence a cue whose
    text is replaced ends up with a text of one line, however many lines
    its own text had. *)
Theorem recovered_text_single_line segs pairs (parsed : list pnode) :
  translatedToCues segs = Ok pairs →
  (∀ c t, (c, t) ∈ pairs → (LF ∉ t) ∧ forallb dot t = true)
  ∧ (∀ i n, prepareOutput (applyTranslationCues parsed pairs) !! i = Some (Rebuilt n) →
       ∃ c, n = Cue c ∧ (LF ∉ text c) ∧ forallb dot (text c) = true).
Proof.
  intros [_ Hinv]%translatedToCues_inv.
  assert (Hpairs : ∀ c t, (c, t) ∈ pairs → (LF ∉ t) ∧ forallb dot t = true).
  { intros c t (seg & _ & Hseg)%Hinv.
    apply translatedToCue_inv in Hseg as (_ & _ & _ & _ & _ & _ & Hdot & _).
    split; [|done]. intros Hin%list_elem_of_In.
    by apply (proj1 (forallb_forall _ _) Hdot) in Hin. }
  split; [done|]. intros i n Ho.
  destruct (parsed !! i) as [p|] eqn:Hp.
  2:{ unfold prepareOutput, applyTranslationCues in Ho.
      by rewrite !list_lookup_fmap, Hp in Ho. }
  rewrite (output_lookup _ _ _ _ Hp) in Ho.
  destruct (prepareOutput1_cases p (recovered pairs (code p)))
    as [(c & t & Ec & Er & _ & Hout)|[_ Hout]]; rewrite Hout in Ho; [|done].
  simplify_eq. eexists. split; [done|]. cbn [with_text text].
  by eapply Hpairs, recovered_elem.
Qed.

(** Witness of C10: a reply segment whose marker is followed by two lines. *)
Lemma recovered_text_single_line_witness :
  translatedToCues [msg (str "ABC123") (str "Bonjour" ++ [LF] ++ str "Monde")]
    = Ok [(str "ABC123", str "Bonjour")]
  ∧ (∀ c t, (c, t) ∈ [(str "ABC123", str "Bonjour")] → (LF ∉ t) ∧ forallb dot t = true)
  ∧ (∀ i n,
       prepareOutput (applyTranslationCues two_lines [(str "ABC123", str "Bonjour")])
         !! i = Some (Rebuilt n) →
       ∃ c, n = Cue c ∧ (LF ∉ text c) ∧ forallb dot (text c) = true).
Proof.
  split; [reflexivity|].
  apply (recovered_text_single_line
           [msg (str "ABC123") (str "Bonjour" ++ [LF] ++ str "Monde")]).
  reflexivity.
Defined.

(** * Further properties *)

(** ** randomCode and parseFile *)

(** X1. Whatever the draws, [randomCode(alpha, number)] gives [alpha]
    uppercase letters followed by [number] digits. *)
Theorem randomCode_shape alpha number rnd :
  length (randomCode alpha number rnd) = (alpha + number)%nat
  ∧ forallb is_upper (take alpha (randomCode alpha number rnd)) = true
  ∧ forallb is_digit (drop alpha (randomCode alpha number rnd)) = true.
Proof.
  unfold randomCode.
  rewrite length_app, !length_fmap, !length_seq. split; [done|].
  rewrite take_app_length', drop_app_length' by by rewrite length_fmap, length_seq.
  split; apply forallb_forall; intros x
    (i & -> & _)%list_elem_of_In%list_elem_of_fmap_1.
  - pose proof (N.mod_lt (rnd i) 26 ltac:(done)) as H.
    revert H. generalize (rnd i mod 26). intros y Hy.
    unfold is_upper. apply andb_true_intro. split; apply N.leb_le; lia.
  - pose proof (N.mod_lt (rnd i) 10 ltac:(done)) as H.
    revert H. generalize (rnd i mod 10). intros y Hy.
    unfold is_digit. apply andb_true_intro. split; apply N.leb_le; lia.
Qed.

(** X2. A code that begins with a letter never makes the marker line
    equal to the separator line of a batch. *)
Theorem randomCode_not_sentinel alpha number rnd :
  (0 < alpha)%nat →
  str "<" ++ randomCode alpha number rnd ++ str ">" ≠ sentinel.
Proof.
  intros Ha. destruct alpha as [|alpha]; [lia|].
  unfold randomCode. rewrite <- cons_seq. cbn [fmap list_fmap app].
  change (str "<") with [60]. change sentinel with (60 :: 48 :: str "00000>").
  cbn [app]. intros H. injection H as H _.
  pose proof (N.mod_lt (rnd 0%nat) 26 ltac:(done)) as Hlt.
  revert H Hlt. generalize (rnd 0%nat mod 26). intros y Hy Hlt. lia.
Qed.

(** Witness of X2: the call the program makes. *)
Lemma randomCode_not_sentinel_witness :
  (0 < 3)%nat ∧ str "<" ++ randomCode 3 3 (λ _, 0) ++ str ">" ≠ sentinel.
Proof. split; [lia|]. apply (randomCode_not_sentinel 3 3 (λ _, 0)). lia. Defined.

(** X3. [parseFile] keeps the nodes of the parser, in their order, and
    gives each of them a code of three letters and three digits. *)
Theorem parseFile_codes nodes rnd :
  item <$> parseFile nodes rnd = nodes
  ∧ Forall (λ p, is_code (code p) = true) (parseFile nodes rnd).
Proof.
  unfold parseFile. split.
  - rewrite fmap_imap. apply list_eq. intros i.
    rewrite list_lookup_imap. by destruct (nodes !! i).
  - apply Forall_lookup. intros i p Hp.
    rewrite list_lookup_imap in Hp.
    destruct (nodes !! i); [|done].
    cbn [fmap option_fmap option_map] in Hp. injection Hp as <-.
    apply randomCode_is_code.
Qed.

(** ** What is sent *)

Lemma js_slice_elem {A} (l : list A) (start end' : Z) x :
  x ∈ js_slice l start end' → x ∈ l.
Proof.
  unfold js_slice. intros (i & Hi & _)%elem_of_take.
  apply list_elem_of_lookup_2 in Hi. by eapply subseteq_drop.
Qed.

(** X4. Whatever the batch size, everything [getMessageQueue] puts in a
    batch is the message of a cue that has a text: headers and cues
    without text are never sent. *)
Theorem only_cues_with_text_are_sent (parsed : list pnode) b queues queue m :
  getMessageQueue parsed b = Ok queues → queue ∈ queues → m ∈ queue →
  ∃ p d, p ∈ parsed ∧ item p = Cue d ∧ text d ≠ [] ∧ m = msg (code p) (text d).
Proof.
  unfold getMessageQueue.
  destruct (js_Array _) as [arr|]; [|done]. cbn [mbind result_bind].
  intros ? Hqueue Hm. simplify_eq.
  apply list_elem_of_lookup in Hqueue as [i Hi].
  rewrite list_lookup_imap in Hi. destruct (arr !! i); [|done].
  cbn in Hi. simplify_eq.
  by apply message_inv, (js_slice_elem _ _ _ _ Hm).
Qed.

(** Witness of X4: the first message of the batch of [hello_world]. *)
Lemma only_cues_with_text_are_sent_witness :
  getMessageQueue hello_world 15 = Ok [hello_world_queue]
  ∧ hello_world_queue ∈ [hello_world_queue]
  ∧ msg (str "ABC123") (str "Hello") ∈ hello_world_queue
  ∧ ∃ p d, p ∈ hello_world ∧ item p = Cue d ∧ text d ≠ []
      ∧ msg (str "ABC123") (str "Hello") = msg (code p) (text d).
Proof.
  assert (H1 : getMessageQueue hello_world 15 = Ok [hello_world_queue])
    by reflexivity.
  assert (H2 : hello_world_queue ∈ [hello_world_queue]) by constructor.
  assert (H3 : msg (str "ABC123") (str "Hello") ∈ hello_world_queue)
    by constructor.
  repeat (split; [assumption|]).
  exact (only_cues_with_text_are_sent hello_world 15 [hello_world_queue]
           hello_world_queue (msg (str "ABC123") (str "Hello")) H1 H2 H3).
Defined.

(** X5. When no node is a cue with text, a run with a batch size of at
    least one sends no request and returns every node as it was. *)
Theorem nothing_to_translate o service (parsed : list pnode) :
  (1 ≤ batchSize o)%Z → omap message parsed = [] →
  main o service parsed
  = (Ok ((λ p, Kept {| source := p; translated := None |}) <$> parsed), []).
Proof.
  intros Hb Hnone. unfold main, getMessageQueue, math_ceil_div.
  rewrite Hnone. cbn [length Z.of_nat Z.opp].
  destruct (Z.eqb_spec (batchSize o) 0) as [|_]; [lia|].
  rewrite Z.div_0_l by lia.
  change (js_Array (Some (- 0)%Z)) with (Ok (@nil unit)).
  cbn [mbind result_bind imap].
  unfold translateQueues.
  cbn [translateQueues_from translatedToCues mbind result_bind].
  by rewrite applyTranslationCues_nil.
Qed.

(** Witness of X5: a file that holds a header and a cue without text. *)
Lemma nothing_to_translate_witness :
  (1 ≤ batchSize default_options)%Z
  ∧ omap message [ {| item := Header (str "WEBVTT"); code := str "ABC123" |};
                   sample_cue 0 "DEF456" [] ] = []
  ∧ main default_options service_down
      [ {| item := Header (str "WEBVTT"); code := str "ABC123" |};
        sample_cue 0 "DEF456" [] ]
    = (Ok ((λ p, Kept {| source := p; translated := None |})
             <$> [ {| item := Header (str "WEBVTT"); code := str "ABC123" |};
                   sample_cue 0 "DEF456" [] ]), []).
Proof.
  split; [cbn; lia|]. split; [reflexivity|].
  apply (nothing_to_translate default_options service_down); [cbn; lia|reflexivity].
Defined.

(** X6. Once the batches are planned, the requests of a run go as far as
    the first completion that has no choice. When no completion is
    without choice, every batch is sent once, in the order of the
    batches, whatever the replies hold and whether or not they can be
    parsed afterwards. When the completion of a batch is the first
    without choice, the prompts sent are those of the batches up to that
    one, the batches after it are not sent, and the run throws a
    [TypeError]. *)
Theorem requests_until_first_throw o service (parsed : list pnode) messages :
  getMessageQueue parsed (batchSize o) = Ok messages →
  ((∀ k queue, messages !! k = Some queue →
      service k (render_prompt o queue) ≠ Choices []) →
   (main o service parsed).2 = render_prompt o <$> messages)
  ∧ (∀ k queue, messages !! k = Some queue →
       service k (render_prompt o queue) = Choices [] →
       (∀ j q, (j < k)%nat → messages !! j = Some q →
          service j (render_prompt o q) ≠ Choices []) →
       main o service parsed
       = (Throw TypeError, render_prompt o <$> take (S k) messages)).
Proof.
  intros Hq. rewrite (main_planned _ _ _ _ Hq). unfold translateQueues. split.
  - intros Hall.
    destruct (translateQueues_from_Forall (λ _, True) o service 0 messages)
      as (lines & -> & _); [|done].
    intros i queue Hi. destruct (translateQueue_returns o (service i) queue)
      as [segs Hsegs]; [by apply Hall|].
    exists segs. split; [done|]. by apply Forall_forall.
  - intros k queue Hk Hnone Hbefore.
    rewrite (translateQueues_from_Throw o service 0 messages k queue TypeError);
      [done|done| |].
    + by apply translateQueue_throws, getChatGPTAnswer_throws.
    + intros j q Hj Hjq. apply translateQueue_returns. by eapply Hbefore.
Qed.

(** Witness of X6: two batches of one cue and a service whose completions
    have no choice; the first prompt is sent, the second is not. *)
Lemma requests_until_first_throw_witness :
  getMessageQueue hello_world (batchSize one_by_one)
    = Ok [[msg (str "ABC123") (str "Hello")]; [msg (str "DEF456") (str "World")]]
  ∧ main one_by_one no_choices hello_world
    = (Throw TypeError, [render_prompt one_by_one [msg (str "ABC123") (str "Hello")]]).
Proof.
  assert (H : getMessageQueue hello_world (batchSize one_by_one)
              = Ok [[msg (str "ABC123") (str "Hello")];
                    [msg (str "DEF456") (str "World")]]) by reflexivity.
  split; [exact H|].
  destruct (requests_until_first_throw one_by_one no_choices hello_world _ H)
    as [_ Hstop].
  apply (Hstop 0%nat [msg (str "ABC123") (str "Hello")]); [reflexivity..|].
  intros j q Hj. lia.
Defined.

(** ** The reply parser on arbitrary segments *)

(** X9. [translatedToCues] throws exactly when one of the segments holds
    no marker at all, and what it throws is a [TypeError]; when every
    segment holds a marker it returns pairs. *)
Theorem parser_throws_iff segs :
  (translatedToCues segs = Throw TypeError
   ↔ Exists (λ seg, no_marker_before seg [] = true) segs)
  ∧ ((∃ pairs, translatedToCues segs = Ok pairs)
     ↔ Forall (λ seg, no_marker_before seg [] = false) segs).
Proof.
  split; [apply translatedToCues_throws|].
  induction segs as [|seg segs IH].
  - split; [by constructor|]. intros _. by exists [].
  - rewrite Forall_cons, <- IH, translatedToCues_cons.
    pose proof (translatedToCue_throws seg) as Hthrow.
    pose proof (translatedToCue_not_RangeError seg).
    destruct (translatedToCue seg) as [c|[]] eqn:E; [|done|].
    + cbn. assert (no_marker_before seg [] = false) as ->.
      { destruct (no_marker_before seg []); [|done].
        by destruct Hthrow as [_ Hthrow]; specialize (Hthrow eq_refl). }
      destruct (translatedToCues segs) as [cs|e]; cbn.
      * split; [by eauto|]. by eauto.
      * split; [by intros [??]|]. by intros [_ [??]].
    + cbn. rewrite (proj1 Hthrow eq_refl). split; [by intros [??]|by intros [? _]].
Qed.

(** X10. What [translatedToCues] returns never holds more pairs than there
    are segments, and every pair is a code of six code units of the token
    alphabet with a text that is not empty. *)
Theorem parser_pairs_well_formed segs pairs :
  translatedToCues segs = Ok pairs →
  (length pairs ≤ length segs)%nat
  ∧ Forall (λ ct, length ct.1 = 6%nat ∧ forallb token_char ct.1 = true ∧ ct.2 ≠ [])
      pairs.
Proof.
  intros [Hlen Hinv]%translatedToCues_inv. split; [done|].
  apply Forall_forall. intros [c t] (seg & _ & Hseg)%Hinv.
  by apply translatedToCue_inv in Hseg as (_ & _ & _ & ? & ? & ? & _).
Qed.

(** Witness of X10: a reply cut into two segments, the second of which
    has an empty line after its marker. *)
Lemma parser_pairs_well_formed_witness :
  translatedToCues [msg (str "ABC123") (str "Bonjour"); msg (str "DEF456") []]
    = Ok [(str "ABC123", str "Bonjour")]
  ∧ (length [(str "ABC123", str "Bonjour")]
     ≤ length [msg (str "ABC123") (str "Bonjour"); msg (str "DEF456") []])%nat
  ∧ Forall (λ ct, length ct.1 = 6%nat ∧ forallb token_char ct.1 = true ∧ ct.2 ≠ [])
      [(str "ABC123", str "Bonjour")].
Proof.
  split; [reflexivity|].
  apply (parser_pairs_well_formed
           [msg (str "ABC123") (str "Bonjour"); msg (str "DEF456") []]).
  reflexivity.
Defined.

(** The first marker of a segment decides what the segment gives. *)
Lemma translatedToCue_first pre c t rest :
  no_marker_before pre (msg c t ++ rest) = true →
  length c = 6%nat → forallb token_char c = true →
  forallb dot t = true → at_line_end rest = true →
  translatedToCue (pre ++ msg c t ++ rest)
  = Ok (if truthy t then Some (c, t) else None).
Proof.
  intros Hpre Hlen Hc Ht Hrest. unfold translatedToCue, first_match.
  rewrite search_marker_skip by done.
  rewrite (search_found _ _ _ (marker_chunks c t) rest) by by apply exec_marker.
  rewrite captures_marker. cbn [lookup list_lookup].
  destruct c as [|? c]; [done|]. by destruct t.
Qed.

(** X11. A segment whose first marker is followed by an empty line gives
    no pair and does not throw, whatever comes after that line: markers
    further down in the segment are not looked at. *)
Theorem empty_line_discards_segment pre c rest :
  no_marker_before pre (msg c [] ++ rest) = true →
  length c = 6%nat → forallb token_char c = true → at_line_end rest = true →
  translatedToCue (pre ++ msg c [] ++ rest) = Ok None.
Proof. intros. by rewrite translatedToCue_first. Qed.

(** Witness of X11: an empty line after the first marker, then a second
    marker with its text. *)
Lemma empty_line_discards_segment_witness :
  no_marker_before [] (msg (str "ABC123") [] ++ [LF] ++ msg (str "DEF456") (str "Monde"))
    = true
  ∧ length (str "ABC123") = 6%nat ∧ forallb token_char (str "ABC123") = true
  ∧ at_line_end ([LF] ++ msg (str "DEF456") (str "Monde")) = true
  ∧ translatedToCue
      ([] ++ msg (str "ABC123") [] ++ [LF] ++ msg (str "DEF456") (str "Monde"))
    = Ok None.
Proof.
  repeat (split; [reflexivity|]).
  apply (empty_line_discards_segment [] (str "ABC123")
           ([LF] ++ msg (str "DEF456") (str "Monde"))); reflexivity.
Defined.

Lemma msg_first_line c t :
  msg c t = msg c (first_line t) ++ drop (run_length dot t) t.
Proof.
  rewrite !msg_unfold. cbn [app]. rewrite <- app_assoc. cbn [app].
  unfold first_line. by rewrite take_drop.
Qed.

Lemma translatedToCue_msg c t :
  length c = 6%nat → forallb token_char c = true →
  translatedToCue (msg c t)
  = Ok (if truthy (first_line t) then Some (c, first_line t) else None).
Proof.
  intros Hlen Hc. rewrite msg_first_line, <- (app_nil_l (msg _ _ ++ _)).
  apply translatedToCue_first; try done.
  - apply run_length_forallb.
  - apply run_length_end.
Qed.

(** X12. A message read back by the parser gives its code with the first
    line of its text, and nothing when that line is empty: the lines
    after the first are lost. *)
Theorem message_read_back c t :
  length c = 6%nat → forallb token_char c = true →
  translatedToCue (msg c t)
  = Ok (if truthy (first_line t) then Some (c, first_line t) else None).
Proof. apply translatedToCue_msg. Qed.

(** Witness of X12: a text of two lines. *)
Lemma message_read_back_witness :
  length (str "ABC123") = 6%nat ∧ forallb token_char (str "ABC123") = true
  ∧ translatedToCue (msg (str "ABC123") (str "Hello" ++ [LF] ++ str "World"))
    = Ok (if truthy (first_line (str "Hello" ++ [LF] ++ str "World"))
          then Some (str "ABC123", first_line (str "Hello" ++ [LF] ++ str "World"))
          else None).
Proof.
  repeat (split; [reflexivity|]).
  apply (message_read_back (str "ABC123") (str "Hello" ++ [LF] ++ str "World"));
    reflexivity.
Defined.

(** ** The map of the translations, again *)

Lemma recovered_snoc pairs k t : recovered (pairs ++ [(k, t)]) k = Some t.
Proof.
  induction pairs as [|[c t'] pairs IH]; cbn [app recovered].
  - by rewrite decide_True.
  - by rewrite IH.
Qed.

Lemma applied_lookup (parsed : list pnode) pairs tn :
  tn ∈ applyTranslationCues parsed pairs →
  source tn ∈ parsed ∧ translated tn = recovered pairs (code (source tn)).
Proof.
  unfold applyTranslationCues. intros (p & -> & Hp)%list_elem_of_fmap_1.
  cbn [source translated]. by rewrite to_Map_lookup.
Qed.

(** X13. [applyTranslationCues] keeps the nodes in their order; a node
    gets [null] exactly when no pair carries its code; and when several
    pairs carry one code the last of them decides. *)
Theorem translation_map_lookup (parsed : list pnode) pairs k t :
  source <$> applyTranslationCues parsed pairs = parsed
  ∧ Forall (λ tn, translated tn = None ↔ code (source tn) ∉ pairs.*1)
      (applyTranslationCues parsed pairs)
  ∧ Forall (λ tn, code (source tn) = k → translated tn = Some t)
      (applyTranslationCues parsed (pairs ++ [(k, t)])).
Proof.
  split; [|split].
  - unfold applyTranslationCues. rewrite <- list_fmap_compose.
    rewrite <- (list_fmap_id parsed) at 2. by apply list_fmap_ext.
  - apply Forall_forall. intros tn [_ ->]%applied_lookup. apply recovered_None.
  - apply Forall_forall. intros tn [_ ->]%applied_lookup <-. apply recovered_snoc.
Qed.

(** X14. Two cues that carry the same code get the same text: when a
    non-empty text was recovered for the code, it replaces the text of
    both. *)
Theorem shared_code_shared_text (parsed : list pnode) pairs i j p q c d t :
  parsed !! i = Some p → parsed !! j = Some q →
  item p = Cue c → item q = Cue d → code p = code q →
  recovered pairs (code p) = Some t → t ≠ [] →
  prepareOutput (applyTranslationCues parsed pairs) !! i
    = Some (Rebuilt (Cue (with_text c t)))
  ∧ prepareOutput (applyTranslationCues parsed pairs) !! j
    = Some (Rebuilt (Cue (with_text d t))).
Proof.
  intros Hp Hq Ec Ed Hcode Hrec Hne.
  rewrite (output_lookup _ _ _ _ Hp), (output_lookup _ _ _ _ Hq), <- Hcode, Hrec.
  unfold prepareOutput1. cbn [translated source]. rewrite Ec, Ed.
  by destruct t.
Qed.

(** Witness of X14: two cues under the code ABC123. *)
Lemma shared_code_shared_text_witness :
  ∃ out,
    prepareOutput
      (applyTranslationCues
         [sample_cue 0 "ABC123" (str "Hello"); sample_cue 1000 "ABC123" (str "World")]
         [(str "ABC123", str "Monde")]) = out
    ∧ out !! 0%nat
      = Some (Rebuilt (Cue (with_text
          {| start := 0; end_ := 0 + 1000; text := str "Hello"; settings := None |}
          (str "Monde"))))
    ∧ out !! 1%nat
      = Some (Rebuilt (Cue (with_text
          {| start := 1000; end_ := 1000 + 1000; text := str "World"; settings := None |}
          (str "Monde")))).
Proof.
  eexists. split; [reflexivity|].
  apply (shared_code_shared_text
           [sample_cue 0 "ABC123" (str "Hello"); sample_cue 1000 "ABC123" (str "World")]
           [(str "ABC123", str "Monde")] 0 1
           (sample_cue 0 "ABC123" (str "Hello"))
           (sample_cue 1000 "ABC123" (str "World")));
    try reflexivity.
  vm_compute. discriminate.
Defined.

(** ** Replies that stop the run *)

Lemma translateQueues_from_elem o service k queues i queue segs seg lines :
  queues !! i = Some queue →
  translateQueue o (service (k + i)%nat) queue = Ok segs → seg ∈ segs →
  (translateQueues_from o service k queues).1 = Ok lines →
  seg ∈ lines.
Proof.
  revert k i lines. induction queues as [|q queues IH]; intros k i lines Hi Hsegs Hseg;
    [done|].
  cbn [translateQueues_from].
  destruct (translateQueue o (service k) q) as [queueResult|e] eqn:Eq; [|done].
  pose proof (IH (S k)) as IH'.
  destruct (translateQueues_from o service (S k) queues) as [[rest|e] sent];
    [|done].
  cbn [fst mbind result_bind] in *. intros [= <-].
  apply elem_of_app. destruct i as [|i].
  - left. cbn in Hi. simplify_eq. rewrite Nat.add_0_r, Eq in Hsegs.
    by simplify_eq.
  - right. apply (IH' i rest); [done| |done|done].
    by rewrite Nat.add_succ_r in Hsegs.
Qed.

(** A segment without marker in the lines of one batch: the run throws a
    [TypeError], in the parser if not before. *)
Lemma bad_segment_throws o service (parsed : list pnode) messages k queue segs seg :
  getMessageQueue parsed (batchSize o) = Ok messages →
  messages !! k = Some queue →
  translateQueue o (service k) queue = Ok segs → seg ∈ segs →
  no_marker_before seg [] = true →
  (main o service parsed).1 = Throw TypeError.
Proof.
  intros Hq Hk Hsegs Hseg Hno. rewrite (main_planned _ _ _ _ Hq). cbn [fst].
  unfold translateQueues.
  destruct (translateQueues_from o service 0 messages).1 as [lines|e] eqn:E.
  - cbn [mbind result_bind].
    assert (Hthrow : translatedToCues lines = Throw TypeError).
    { apply translatedToCues_throws, Exists_exists. exists seg. split; [|done].
      by eapply (translateQueues_from_elem _ _ 0). }
    by rewrite Hthrow.
  - apply translateQueues_from_TypeError in E as ->. done.
Qed.

(** X15. If the lines obtained for any one batch hold a segment without a
    marker, the whole run throws a [TypeError], whatever the other
    batches gave. *)
Theorem one_bad_segment_stops_the_run o service (parsed : list pnode)
    messages k queue segs seg :
  getMessageQueue parsed (batchSize o) = Ok messages →
  messages !! k = Some queue →
  translateQueue o (service k) queue = Ok segs → seg ∈ segs →
  no_marker_before seg [] = true →
  (main o service parsed).1 = Throw TypeError.
Proof.
  intros Hq Hk Hsegs Hseg Hno. by eapply bad_segment_throws.
Qed.

(** Witness of X15: the reply has a comment ahead of the separator line. *)
Lemma one_bad_segment_stops_the_run_witness :
  getMessageQueue hello_world (batchSize default_options) = Ok [hello_world_queue]
  ∧ [hello_world_queue] !! 0%nat = Some hello_world_queue
  ∧ translateQueue default_options
      (service_says (str "Here you are:" ++ separator
                     ++ msg (str "ABC123") (str "Bonjour")) 0)
      hello_world_queue
    = Ok [str "Here you are:"; msg (str "ABC123") (str "Bonjour")]
  ∧ str "Here you are:"
    ∈ [str "Here you are:"; msg (str "ABC123") (str "Bonjour")]
  ∧ no_marker_before (str "Here you are:") [] = true
  ∧ (main default_options
       (service_says (str "Here you are:" ++ separator
                      ++ msg (str "ABC123") (str "Bonjour")))
       hello_world).1 = Throw TypeError.
Proof.
  assert (H3 : translateQueue default_options
      (service_says (str "Here you are:" ++ separator
                     ++ msg (str "ABC123") (str "Bonjour")) 0)
      hello_world_queue
    = Ok [str "Here you are:"; msg (str "ABC123") (str "Bonjour")])
    by (vm_compute; reflexivity).
  assert (H4 : str "Here you are:"
    ∈ [str "Here you are:"; msg (str "ABC123") (str "Bonjour")]) by constructor.
  split; [reflexivity|]. split; [reflexivity|]. split; [exact H3|].
  split; [exact H4|]. split; [reflexivity|].
  exact (one_bad_segment_stops_the_run default_options _ hello_world
           [hello_world_queue] 0 hello_world_queue _ (str "Here you are:")
           eq_refl eq_refl H3 H4 eq_refl).
Defined.

Lemma trim_end prev : replace_all trim_re (dollar1 trim_re) prev [] 0 = [].
Proof.
  cbn [replace_all]. unfold trim_re at 1. cbn [exec].
  destruct (at_line_start prev); reflexivity.
Qed.

(** A text of white space only is trimmed to nothing. *)
Lemma trim_white_space prev s :
  at_line_start prev = true → forallb is_white_space s = true →
  replace_all trim_re (dollar1 trim_re) prev s 0 = [].
Proof.
  intros Hprev Hs. destruct s as [|c s]; [apply trim_end|].
  rewrite <- (app_nil_r (c :: s)).
  rewrite (replace_all_match _ _ _ _ _ [[]; c :: s; []; []; []; []; []]);
    [by rewrite trim_end| |cbn; by rewrite !app_nil_r|done].
  unfold trim_re. rewrite exec_Bol, exec_Star by done.
  rewrite run_length_app by done. cbn [run_length]. rewrite Nat.add_0_r.
  rewrite (backtrack_found _ _ _ _ ([c :: s; []; []; []; []; []], [])); [done|].
  by rewrite take_app_length, drop_app_length.
Qed.

(** X16. A reply made of white space only (line breaks included) is not
    taken as a failed request: it is trimmed to the empty text, which is
    a segment without marker, and the run throws a [TypeError]. *)
Theorem white_space_reply_stops_the_run o service (parsed : list pnode)
    messages k queue reply :
  getMessageQueue parsed (batchSize o) = Ok messages →
  messages !! k = Some queue →
  getChatGPTAnswer (service k) (render_prompt o queue) = Ok (Some reply) →
  reply ≠ [] → forallb is_white_space reply = true →
  (main o service parsed).1 = Throw TypeError.
Proof.
  intros Hq Hk Hreply Hne Hws.
  apply (bad_segment_throws o service parsed messages k queue [[]] []);
    [done|done| |constructor|done].
  rewrite (translateQueue_answer _ _ _ _ Hreply).
  destruct reply; [done|]. cbn [truthy].
  by rewrite trim_white_space.
Qed.

(** Witness of X16: the reply is a single line feed. *)
Lemma white_space_reply_stops_the_run_witness :
  getMessageQueue hello_world (batchSize default_options) = Ok [hello_world_queue]
  ∧ [hello_world_queue] !! 0%nat = Some hello_world_queue
  ∧ getChatGPTAnswer (service_says [LF] 0%nat)
      (render_prompt default_options hello_world_queue)
    = Ok (Some [LF])
  ∧ [LF] ≠ [] ∧ forallb is_white_space [LF] = true
  ∧ (main default_options (service_says [LF]) hello_world).1 = Throw TypeError.
Proof.
  assert (H4 : [LF] ≠ []) by discriminate.
  split; [reflexivity|]. split; [reflexivity|]. split; [reflexivity|].
  split; [exact H4|]. split; [reflexivity|].
  exact (white_space_reply_stops_the_run default_options (service_says [LF])
           hello_world [hello_world_queue] 0 hello_world_queue [LF]
           eq_refl eq_refl eq_refl H4 eq_refl).
Defined.

(** ** Runs in which the service gives nothing *)

Lemma translateQueue_silent o service k queue :
  silent service → translateQueue o (service k) queue = Ok queue.
Proof.
  intros Hsilent.
  by destruct (Hsilent k (render_prompt o queue)) as [H|H];
    rewrite (translateQueue_answer _ _ _ _ H).
Qed.

(** X7. When the service gives nothing for any request (no completion, or
    an empty one), the codes of the cues differ from each other and every
    text sent is one line, the run returns the nodes it was given. *)
Theorem silent_service_one_line o service (parsed : list pnode) messages :
  silent service →
  (1 ≤ batchSize o)%Z → (Z.of_nat (length parsed) < 2 ^ 32)%Z →
  getMessageQueue parsed (batchSize o) = Ok messages →
  NoDup (cue_codes parsed) →
  (∀ p d, p ∈ parsed → item p = Cue d → text d ≠ [] →
     is_code (code p) = true ∧ forallb dot (text d) = true) →
  ∃ out, (main o service parsed).1 = Ok out ∧ out_node <$> out = item <$> parsed.
Proof.
  intros Hsilent Hb Hlen Hq Hnd Hsafe.
  apply (identity_run o service parsed messages); try done.
  intros k queue _. by apply translateQueue_silent.
Qed.

(** Witness of X7: [hello_world] and a service that answers with empty
    content. *)
Lemma silent_service_one_line_witness :
  ∃ out, (main default_options (service_says []) hello_world).1 = Ok out
    ∧ out_node <$> out = item <$> hello_world.
Proof.
  apply (silent_service_one_line default_options (service_says []) hello_world
           [hello_world_queue]).
  - intros k prompt. right. reflexivity.
  - cbn; lia.
  - cbn; lia.
  - reflexivity.
  - apply (bool_decide_unpack _). vm_compute. exact I.
  - intros p d Hp Ed _. unfold hello_world in Hp.
    apply elem_of_cons in Hp as [->|Hp];
      [|apply elem_of_cons in Hp as [->|Hp]; [|by apply elem_of_nil in Hp]];
      injection Ed as <-; split; reflexivity.
Defined.

Lemma translatedToCues_first_lines (parsed : list pnode) :
  (∀ p d, p ∈ parsed → item p = Cue d → text d ≠ [] → is_code (code p) = true) →
  translatedToCues (omap message parsed) = Ok (omap first_pair parsed).
Proof.
  induction parsed as [|q parsed IH]; intros Hall; [done|].
  cbn [omap list_omap]. unfold message at 1, first_pair at 1.
  assert (IH' : translatedToCues (omap message parsed) = Ok (omap first_pair parsed)).
  { apply IH. intros p d Hp. apply Hall. by right. }
  destruct (item q) as [|d] eqn:Ed; [done|].
  destruct (truthy (text d)) eqn:Et; [|done]. cbn [andb].
  assert (Hcode : is_code (code q) = true).
  { apply (Hall q d); [left|done|]. intros Hn. by rewrite Hn in Et. }
  apply is_code_token in Hcode as [Hlen Hc].
  rewrite translatedToCues_cons, translatedToCue_msg, IH' by done.
  by destruct (truthy (first_line (text d))).
Qed.

Lemma elem_of_first_pairs (parsed : list pnode) k t :
  (k, t) ∈ omap first_pair parsed →
  ∃ p d, p ∈ parsed ∧ item p = Cue d ∧ code p = k ∧ t = first_line (text d).
Proof.
  intros (p & Hp & Hpair)%list_elem_of_omap. unfold first_pair in Hpair.
  destruct (item p) as [|d] eqn:Ed; [done|].
  destruct (_ && _); [|done]. simplify_eq. by exists p, d.
Qed.

(** X8. When the service gives nothing for any request and the codes are
    well formed, the run does not throw, whatever the texts are. Every
    node comes out as it was, or, for a cue, with the first line of the
    text of a cue that carries the same code. *)
Theorem silent_service_never_throws o service (parsed : list pnode) messages :
  silent service →
  (1 ≤ batchSize o)%Z → (Z.of_nat (length parsed) < 2 ^ 32)%Z →
  getMessageQueue parsed (batchSize o) = Ok messages →
  (∀ p d, p ∈ parsed → item p = Cue d → text d ≠ [] → is_code (code p) = true) →
  ∃ out, (main o service parsed).1 = Ok out
    ∧ Forall2 (λ p o,
         out_node o = item p
         ∨ ∃ c p' d', item p = Cue c ∧ p' ∈ parsed ∧ item p' = Cue d'
             ∧ code p' = code p
             ∧ out_node o = Cue (with_text c (first_line (text d'))))
       parsed out.
Proof.
  intros Hsilent Hb Hlen Hq Hcodes.
  pose proof (getMessageQueue_concat _ _ _ Hb Hlen Hq) as Hconcat.
  rewrite (main_planned _ _ _ _ Hq), translateQueues_fst, Hconcat
    by (intros; apply translateQueue_silent; assumption).
  cbn [fst mbind result_bind].
  rewrite translatedToCues_first_lines by done. cbn [mbind result_bind].
  eexists. split; [done|].
  apply Forall2_same_length_lookup_2; [by rewrite output_length|].
  intros i p ono Hp Ho. rewrite (output_lookup _ _ _ _ Hp) in Ho. simplify_eq.
  destruct (prepareOutput1_cases p (recovered (omap first_pair parsed) (code p)))
    as [(c & t & Ec & Er & _ & ->)|[_ ->]]; [|by left].
  right. apply recovered_elem, elem_of_first_pairs in Er
    as (p' & d' & Hp' & Ed' & Hcode & ->).
  by exists c, p', d'.
Qed.

(** Witness of X8: the cue of two lines. *)
Lemma silent_service_never_throws_witness :
  ∃ out, (main default_options service_down two_lines).1 = Ok out
    ∧ Forall2 (λ p o,
         out_node o = item p
         ∨ ∃ c p' d', item p = Cue c ∧ p' ∈ two_lines ∧ item p' = Cue d'
             ∧ code p' = code p
             ∧ out_node o = Cue (with_text c (first_line (text d'))))
       two_lines out.
Proof.
  apply (silent_service_never_throws default_options service_down two_lines
           [[msg (str "ABC123") (str "Hello" ++ [LF] ++ str "World")]]).
  - intros k prompt. left. reflexivity.
  - cbn; lia.
  - cbn; lia.
  - reflexivity.
  - intros p d Hp Ed _. unfold two_lines in Hp.
    apply elem_of_cons in Hp as [->|Hp]; [|by apply elem_of_nil in Hp].
    reflexivity.
Defined.

(** ** The prompt *)

Lemma get_substitution_plain matched before after repl :
  36 ∉ repl → get_substitution matched before after repl = repl.
Proof.
  induction repl as [|c r IH]; [done|].
  intros [Hc Hr]%not_elem_of_cons. cbn [get_substitution].
  destruct (N.eqb_spec c 36); [done|]. by rewrite IH.
Qed.

Lemma replace_first_go_absent pat repl before s :
  occurs pat s = false → replace_first_go pat repl before s = s.
Proof.
  revert before. induction s as [|c s IH]; intros before; cbn [occurs replace_first_go].
  - intros [-> _]%orb_false_elim. done.
  - intros [-> Hs]%orb_false_elim. by rewrite IH.
Qed.

Lemma replace_first_go_at pat repl before pre post :
  not_before pat pre (pat ++ post) = true → 36 ∉ repl →
  replace_first_go pat repl before (pre ++ pat ++ post) = pre ++ repl ++ post.
Proof.
  intros Hpre Hrepl. revert before Hpre.
  induction pre as [|c pre IH]; intros before Hpre.
  - cbn [app]. destruct (pat ++ post) as [|x l] eqn:E.
    + cbn [replace_first_go]. apply app_eq_nil in E as [-> ->].
      cbn. by rewrite get_substitution_plain, app_nil_r.
    + rewrite <- E. destruct pat as [|a pat'] eqn:Ep.
      * cbn [app] in *. subst post. cbn [replace_first_go starts_with length drop].
        by rewrite get_substitution_plain.
      * rewrite <- Ep in *.
        assert (Hsw : starts_with pat (pat ++ post) = true) by apply starts_with_app.
        rewrite E in *. cbn [replace_first_go]. rewrite Hsw.
        rewrite <- E, drop_app_length. by rewrite get_substitution_plain.
  - cbn [not_before] in Hpre.
    apply andb_prop in Hpre as [Hc%negb_true_iff Hpre].
    cbn [app replace_first_go]. cbn [app] in Hc. rewrite Hc.
    by rewrite IH.
Qed.

Lemma not_before_char pat pre rest a pat' :
  pat = a :: pat' → a ∉ pre → not_before pat pre rest = true.
Proof.
  intros ->. induction pre as [|c pre IH]; [done|].
  intros [Hc Hpre]%not_elem_of_cons. cbn [not_before app starts_with].
  rewrite IH by done. by destruct (N.eqb_spec a c).
Qed.

(** X17. When the template, once the language is put in, holds no
    [[text]] mark, the prompt is the same for every batch: nothing of the
    batch is sent. *)
Theorem prompt_without_text_mark o queue :
  occurs (str "[text]") (replace_first (str "[lang]") (language o) (prompt o)) = false →
  render_prompt o queue = replace_first (str "[lang]") (language o) (prompt o).
Proof. intros H. unfold render_prompt, replace_first at 1. by apply replace_first_go_absent. Qed.

(** Witness of X17: a template that only names the language. *)
Lemma prompt_without_text_mark_witness :
  occurs (str "[text]")
    (replace_first (str "[lang]") (str "fr")
       (str "Translate into [lang]")) = false
  ∧ render_prompt
      {| batchSize := 15; language := str "fr"; prompt := str "Translate into [lang]" |}
      hello_world_queue
    = replace_first (str "[lang]") (str "fr") (str "Translate into [lang]").
Proof.
  split; [reflexivity|].
  apply (prompt_without_text_mark
           {| batchSize := 15; language := str "fr";
              prompt := str "Translate into [lang]" |} hello_world_queue).
  reflexivity.
Defined.

(** X18. With the default template, a language and a batch that hold no
    dollar sign, and a language that holds no opening square bracket, the
    prompt is the instruction with the language in it, an empty line and
    the items of the batch joined by the separator line. *)
Theorem default_prompt_rendering b l queue :
  36 ∉ l → 91 ∉ l → 36 ∉ join separator queue →
  render_prompt {| batchSize := b; language := l; prompt := default_prompt |} queue
  = str "Translate the following text into " ++ l
    ++ str " but keep the 6 digit codes between < > intact:" ++ [LF; LF]
    ++ join separator queue.
Proof.
  intros Hl1 Hl2 Hq. unfold render_prompt, replace_first. cbn [language prompt].
  change default_prompt
    with (str "Translate the following text into " ++ str "[lang]"
          ++ (str " but keep the 6 digit codes between < > intact:" ++ [LF; LF]
              ++ str "[text]")).
  rewrite replace_first_go_at by done.
  replace (str "Translate the following text into " ++ l
           ++ str " but keep the 6 digit codes between < > intact:" ++ [LF; LF]
           ++ str "[text]")
    with ((str "Translate the following text into " ++ l
           ++ str " but keep the 6 digit codes between < > intact:" ++ [LF; LF])
          ++ str "[text]" ++ [])
    by (by rewrite app_nil_r, <- !app_assoc).
  rewrite replace_first_go_at; [by rewrite app_nil_r, <- !app_assoc| |done].
  eapply (not_before_char _ _ _ 91); [reflexivity|].
  rewrite !not_elem_of_app. split; [|split; [done|]].
  - apply (bool_decide_unpack _). vm_compute. exact I.
  - apply (bool_decide_unpack _). vm_compute. exact I.
Qed.

(** Witness of X18: the default options and the batch of [hello_world]. *)
Lemma default_prompt_rendering_witness :
  (36 ∉ str "en-us") ∧ (91 ∉ str "en-us")
  ∧ (36 ∉ join separator hello_world_queue)
  ∧ render_prompt
      {| batchSize := 15; language := str "en-us"; prompt := default_prompt |}
      hello_world_queue
    = str "Translate the following text into " ++ str "en-us"
      ++ str " but keep the 6 digit codes between < > intact:" ++ [LF; LF]
      ++ join separator hello_world_queue.
Proof.
  assert (H1 : 36 ∉ str "en-us") by (apply (bool_decide_unpack _); vm_compute; exact I).
  assert (H2 : 91 ∉ str "en-us") by (apply (bool_decide_unpack _); vm_compute; exact I).
  assert (H3 : 36 ∉ join separator hello_world_queue)
    by (apply (bool_decide_unpack _); vm_compute; exact I).
  repeat (split; [assumption|]).
  exact (default_prompt_rendering 15 (str "en-us") hello_world_queue H1 H2 H3).
Defined.

(** ** Cutting the reply *)

Lemma split_go_nonempty sep s skip cur : split_go sep s skip cur ≠ [].
Proof.
  revert skip cur. induction s as [|c s IH]; intros skip cur; [done|].
  cbn [split_go]. destruct skip; [|apply IH].
  destruct (starts_with sep (c :: s)); [done|apply IH].
Qed.

Lemma join_cons' sep x l : l ≠ [] → join sep (x :: l) = x ++ sep ++ join sep l.
Proof. by destruct l. Qed.

Lemma join_split_go sep s skip cur :
  sep ≠ [] →
  join sep (split_go sep s skip cur) = reverse cur ++ drop skip s.
Proof.
  intros Hsep. revert skip cur. induction s as [|c s IH]; intros skip cur.
  - cbn [split_go join]. by rewrite drop_nil, app_nil_r.
  - cbn [split_go]. destruct skip as [|skip]; [|by rewrite IH].
    destruct (starts_with sep (c :: s)) eqn:Hsw.
    + rewrite join_cons' by apply split_go_nonempty. rewrite IH.
      cbn [reverse app drop]. f_equal.
      destruct sep as [|a sep]; [done|]. cbn [starts_with] in Hsw.
      apply andb_prop in Hsw as [->%N.eqb_eq Hs%starts_with_inv].
      cbn [length pred app]. change (reverse []) with (@nil N). cbn [app].
      by rewrite <- Hs.
    + rewrite IH. cbn [drop]. by rewrite reverse_cons, <- app_assoc.
Qed.

(** X19. The segments a reply is cut into, joined again by the separator
    line, are the trimmed reply: cutting loses nothing but the separator
    lines, and always gives at least one segment. *)
Theorem segments_rejoin o answer queue reply :
  getChatGPTAnswer answer (render_prompt o queue) = Ok (Some reply) → reply ≠ [] →
  ∃ segs, translateQueue o answer queue = Ok segs
    ∧ segs ≠ []
    ∧ join separator segs = replace_all trim_re (dollar1 trim_re) None reply 0.
Proof.
  intros Hans Hne. rewrite (translateQueue_answer _ _ _ _ Hans).
  destruct reply as [|c reply]; [done|]. cbn [truthy]. unfold split.
  eexists. split; [done|]. split.
  - apply split_go_nonempty.
  - by rewrite join_split_go.
Qed.

(** Witness of X19: a reply with two items. *)
Lemma segments_rejoin_witness :
  getChatGPTAnswer (service_says (join separator hello_world_queue) 0%nat)
    (render_prompt default_options hello_world_queue)
    = Ok (Some (join separator hello_world_queue))
  ∧ join separator hello_world_queue ≠ []
  ∧ ∃ segs,
      translateQueue default_options
        (service_says (join separator hello_world_queue) 0%nat) hello_world_queue
      = Ok segs
      ∧ segs ≠ []
      ∧ join separator segs
        = replace_all trim_re (dollar1 trim_re) None
            (join separator hello_world_queue) 0.
Proof.
  assert (H2 : join separator hello_world_queue ≠ []) by (vm_compute; discriminate).
  split; [reflexivity|]. split; [exact H2|].
  exact (segments_rejoin default_options
           (service_says (join separator hello_world_queue) 0%nat)
           hello_world_queue (join separator hello_world_queue) eq_refl H2).
Defined.

(** ** The trimming pattern on arbitrary text *)

Lemma backtrack_some k prev s n :
  is_Some (consumed [] (k prev s)) →
  ∃ m, (m ≤ n)%nat ∧ is_Some (backtrack k prev s n)
    ∧ backtrack k prev s n
      = consumed (take m s) (k (prev_after prev (take m s)) (drop m s)).
Proof.
  intros H0. induction n as [|n IH].
  - exists 0%nat. split; [done|]. cbn [backtrack]. rewrite take_0, drop_0.
    change (prev_after prev []) with prev.
    destruct (consumed [] (k prev s)) eqn:E; [done|]. by destruct H0.
  - cbn [backtrack].
    destruct (consumed (take (S n) s) _) as [r|] eqn:E.
    + exists (S n). by rewrite E.
    + destruct IH as (m & ? & ? & ?). exists m. split; [lia|done].
Qed.

Lemma run_length_next p s :
  match drop (run_length p s) s with [] => True | c :: _ => p c = false end.
Proof.
  induction s as [|c s IH]; [done|]. cbn [run_length].
  destruct (p c) eqn:E; [apply IH|done].
Qed.

(** At the start of a line the pattern always matches: the white space
    that leads, the first line after it as the capture, and some of the
    white space that follows. *)
Lemma exec_trim_any prev s :
  at_line_start prev = true →
  ∃ w rest,
    drop (run_length is_white_space s) s
      = first_line (drop (run_length is_white_space s) s) ++ w ++ rest
    ∧ exec trim_re prev s
      = Some ([[]; take (run_length is_white_space s) s; [];
               first_line (drop (run_length is_white_space s) s); []; w; []], rest).
Proof.
  intros Hprev.
  set (n1 := run_length is_white_space s).
  set (s1 := drop n1 s).
  set (s2 := drop (run_length dot s1) s1).
  destruct (backtrack_some (exec [Eol]) (prev_after (prev_after prev (take n1 s)) (first_line s1))
              s2 (run_length is_white_space s2)) as (m & _ & Hsome & Hback).
  { rewrite exec_Eol. unfold s2. by rewrite run_length_end. }
  destruct Hsome as [[chunks rest] Hr]. rewrite Hr in Hback. symmetry in Hback.
  apply consumed_inv in Hback as (ch & -> & Hback).
  rewrite exec_Eol in Hback. destruct (at_line_end (drop m s2)); [|done].
  injection Hback as <- <-.
  exists (take m s2), (drop m s2). split.
  - rewrite (take_drop m s2). unfold s2, first_line. by rewrite take_drop.
  - unfold trim_re. rewrite exec_Bol, exec_Star by done. fold n1.
    rewrite (backtrack_found _ _ _ _
      ([take n1 s; []; first_line s1; []; take m s2; []], drop m s2)); [done|].
    fold s1. rewrite exec_Open, exec_Star.
    rewrite (backtrack_found _ _ _ _
      ([first_line s1; []; take m s2; []], drop m s2)); [done|].
    fold s2. change (take (run_length dot s1) s1) with (first_line s1).
    by rewrite exec_Close, exec_Star, Hr.
Qed.

(** X20. The trimmed reply never begins with white space: it is empty, or
    its first code unit is not a white-space one. *)
Theorem trimmed_reply_head reply :
  match replace_all trim_re (dollar1 trim_re) None reply 0 with
  | [] => True
  | c :: _ => is_white_space c = false
  end.
Proof.
  destruct (exec_trim_any None reply eq_refl) as (w & rest & Hsplit & Hexec).
  set (n1 := run_length is_white_space reply) in *.
  set (line := first_line (drop n1 reply)) in *.
  destruct (decide (line = [])) as [Hline|Hline].
  - (* nothing but white space *)
    assert (Hws : forallb is_white_space reply = true).
    { rewrite <- (take_drop n1 reply), forallb_app.
      unfold n1 at 1. rewrite run_length_forallb. cbn [andb].
      pose proof (run_length_next is_white_space reply) as Hnext. fold n1 in Hnext.
      pose proof (run_length_next dot (drop n1 reply)) as Hdot.
      unfold line, first_line in Hline.
      destruct (drop n1 reply) as [|c r] eqn:E; [done|].
      cbn [run_length] in Hline. destruct (dot c) eqn:Ec; [done|].
      unfold dot in Ec. apply negb_false_iff in Ec.
      by rewrite (line_terminator_white_space _ Ec) in Hnext. }
    by rewrite trim_white_space.
  - assert (Hreply : reply = (take n1 reply ++ line ++ w) ++ rest).
    { rewrite <- (take_drop n1 reply) at 1. rewrite Hsplit. by rewrite <- !app_assoc. }
    assert (Hhead : ∃ c l, line = c :: l ∧ is_white_space c = false).
    { pose proof (run_length_next is_white_space reply) as Hnext. fold n1 in Hnext.
      unfold line, first_line in *.
      destruct (drop n1 reply) as [|c r] eqn:E; [done|].
      cbn [run_length] in *. destruct (dot c); [|done]. by exists c, (take (run_length dot r) r). }
    destruct Hhead as (c & l & Hl & Hc).
    set (lead := take n1 reply) in *. clearbody lead line n1. subst reply line.
    erewrite replace_all_match; [|exact Hexec| |].
    + unfold dollar1, trim_re. cbn [captures head default app]. done.
    + cbn [concat]. by rewrite !app_nil_r.
    + by destruct lead.
Qed.

(** ** The language in the name of the output file *)

Lemma exec_Rep1 p re prev c s :
  exec (Rep 1 p :: re) prev (c :: s)
  = if p c then consumed [c] (exec re (Some c) s) else None.
Proof. cbn [exec firstn skipn length Nat.eqb forallb andb]. by destruct (p c). Qed.

Lemma exec_Rep1_nil p re prev : exec (Rep 1 p :: re) prev [] = None.
Proof. done. Qed.

(** The first replacement removes the code units outside the class and
    nothing else. *)
Lemma outside_filter prev s :
  replace_all outside_re (λ _, []) prev s 0 = List.filter slug_keep s.
Proof.
  revert prev. induction s as [|c s IH]; intros prev; [done|].
  cbn [replace_all List.filter]. unfold outside_re at 1. rewrite exec_Rep1.
  destruct (slug_keep c); cbn [negb consumed exec concat app length]; by rewrite IH.
Qed.

Lemma collapse_run a b :
  forallb space_or_hyphen a = true →
  match b with [] => True | c :: _ => space_or_hyphen c = false end →
  collapse (a ++ b) true = collapse b false.
Proof.
  intros Ha Hb. induction a as [|c a IH].
  - destruct b as [|c b]; [done|]. cbn [app collapse]. by rewrite Hb.
  - apply andb_prop in Ha as [Hc Ha]. cbn [app collapse]. rewrite Hc. by apply IH.
Qed.

(** The second replacement turns every run of spaces and hyphens into one
    hyphen. *)
Lemma dashes_collapse s prev :
  replace_all dashes_re (λ _, [45]) prev s 0 = collapse s false.
Proof.
  remember (length s) as n eqn:Hn. revert s prev Hn.
  induction n as [n IH] using lt_wf_ind. intros s prev Hn.
  destruct s as [|c s]; [done|].
  destruct (space_or_hyphen c) eqn:Hc.
  - set (r := run_length space_or_hyphen s).
    rewrite <- (take_drop r s).
    change (c :: take r s ++ drop r s) with ((c :: take r s) ++ drop r s).
    rewrite (replace_all_match _ _ _ _ _ [[c]; take r s]).
    + cbn [app collapse]. rewrite Hc. f_equal.
      rewrite collapse_run;
        [|apply run_length_forallb|apply run_length_next].
      eapply IH; [|reflexivity]. subst n. cbn [length]. rewrite length_drop. lia.
    + unfold dashes_re. cbn [app]. rewrite exec_Rep1, Hc, exec_Star.
      rewrite take_drop. fold r.
      by rewrite (backtrack_found _ _ _ _ ([take r s], drop r s)).
    + cbn [concat app]. by rewrite app_nil_r.
    + done.
  - rewrite replace_all_copy.
    + cbn [collapse]. rewrite Hc. f_equal.
      eapply IH; [|reflexivity]. subst n. cbn [length]. lia.
    + unfold dashes_re. by rewrite exec_Rep1, Hc.
Qed.

Lemma collapse_hyphens s b :
  occurs [45; 45] (collapse s b) = false
  ∧ (b = true → head (collapse s b) ≠ Some 45).
Proof.
  revert b. induction s as [|c s IH]; intros b; [done|].
  cbn [collapse]. destruct (space_or_hyphen c) eqn:Hc.
  - destruct b; [apply IH|]. split; [|done].
    destruct (IH true) as [Hocc Hhead]. specialize (Hhead eq_refl).
    cbn [occurs starts_with]. rewrite Hocc.
    destruct (collapse s true) as [|x l]; [done|].
    cbn [starts_with]. destruct (N.eqb_spec 45 x) as [<-|]; [|done].
    by destruct Hhead.
  - destruct (IH false) as [Hocc _].
    assert (c ≠ 45) by (by intros ->).
    split; [|by intros _ [=]].
    cbn [occurs starts_with]. rewrite Hocc.
    by destruct (N.eqb_spec 45 c).
Qed.

Lemma collapse_alphabet s b :
  forallb slug_keep s = true →
  forallb (λ c, is_lower c || is_digit c || (c =? 45)) (collapse s b) = true.
Proof.
  revert b. induction s as [|c s IH]; intros b; [done|].
  intros [Hc Hs]%andb_prop. cbn [collapse].
  destruct (space_or_hyphen c) eqn:Hsp.
  - destruct b; [by apply IH|]. cbn [forallb]. by rewrite IH.
  - cbn [forallb]. rewrite IH by done. unfold slug_keep in Hc.
    unfold space_or_hyphen in Hsp. apply orb_false_elim in Hsp as [H32 H45].
    rewrite H45, H32, !orb_false_r in *. by rewrite Hc.
Qed.

(** X21. Whatever the language option and the lower-casing of the
    platform are, the part of the default file name made from the
    language holds only lowercase letters, digits and hyphens, and never
    two hyphens in a row: it is the lower-cased language without the code
    units outside [[a-z0-9 -]], each run of spaces and hyphens turned
    into one hyphen. *)
Theorem language_slug_is_clean lower language :
  language_slug lower language
    = collapse (List.filter slug_keep (lower language)) false
  ∧ forallb (λ c, is_lower c || is_digit c || (c =? 45))
      (language_slug lower language) = true
  ∧ occurs [45; 45] (language_slug lower language) = false.
Proof.
  unfold language_slug. rewrite outside_filter, dashes_collapse.
  split; [done|]. split.
  - apply collapse_alphabet, forallb_forall. by intros x [_ ?]%filter_In.
  - apply collapse_hyphens.
Qed.

(** ** Codes that collide *)

(** X22. [parseFile] does not compare the codes it hands out: when the
    draws come back every six calls, all the nodes get the same code. *)
Theorem parseFile_same_draws_same_codes nodes rnd :
  (∀ i, rnd (i + 6)%nat = rnd i) →
  Forall (λ p, code p = randomCode 3 3 rnd) (parseFile nodes rnd).
Proof.
  intros Hperiod.
  assert (Hshift : ∀ i j, rnd (6 * i + j)%nat = rnd j).
  { induction i as [|i IH]; intros j; [done|].
    replace (6 * S i + j)%nat with ((6 * i + j) + 6)%nat by lia.
    by rewrite Hperiod. }
  apply Forall_lookup. intros i p Hp. unfold parseFile in Hp.
  rewrite list_lookup_imap in Hp. destruct (nodes !! i); [|done].
  cbn [fmap option_fmap option_map] in Hp. injection Hp as <-. cbn [code].
  change (i + (i + (i + (i + (i + (i + 0))))))%nat with (6 * i)%nat.
  unfold randomCode. f_equal; apply list_fmap_ext; intros ? j _; by rewrite Hshift.
Qed.

(** Witness of X22: every draw is zero. *)
Lemma parseFile_same_draws_same_codes_witness :
  (∀ i : nat, (λ _ : nat, 0) (i + 6)%nat = (λ _ : nat, 0) i)
  ∧ Forall (λ p, code p = randomCode 3 3 (λ _, 0))
      (parseFile [Header (str "WEBVTT"); Header (str "NOTE")] (λ _, 0)).
Proof.
  split; [reflexivity|].
  apply (parseFile_same_draws_same_codes
           [Header (str "WEBVTT"); Header (str "NOTE")] (λ _, 0)).
  reflexivity.
Defined.

(** ** Dollar signs in a batch *)

Lemma get_substitution_app matched before after a r :
  36 ∉ a →
  get_substitution matched before after (a ++ r)
  = a ++ get_substitution matched before after r.
Proof.
  induction a as [|c a IH]; [done|].
  intros [Hc Ha]%not_elem_of_cons. cbn [app get_substitution].
  destruct (N.eqb_spec c 36); [done|]. by rewrite IH.
Qed.

Lemma replace_first_go_found pat repl before pre post :
  pat ≠ [] → not_before pat pre (pat ++ post) = true →
  replace_first_go pat repl before (pre ++ pat ++ post)
  = pre ++ get_substitution pat (reverse before ++ pre) post repl ++ post.
Proof.
  intros Hpat. revert before. induction pre as [|c pre IH]; intros before Hpre.
  - cbn [app]. rewrite app_nil_r.
    assert (Hsw : starts_with pat (pat ++ post) = true) by apply starts_with_app.
    destruct pat as [|a pat'] eqn:Ep; [done|]. rewrite <- Ep in *.
    destruct (pat ++ post) as [|x l] eqn:E; [by rewrite Ep in E|].
    cbn [replace_first_go]. rewrite Hsw, <- E. by rewrite drop_app_length.
  - cbn [not_before] in Hpre.
    apply andb_prop in Hpre as [Hc%negb_true_iff Hpre].
    cbn [app replace_first_go]. cbn [app] in Hc. rewrite Hc, IH by done.
    by rewrite reverse_cons, <- !app_assoc.
Qed.

(** X23. The batch is put in the prompt as a replacement string, so its
    dollar signs are read as patterns. With the default template, two
    dollar signs in a batch are sent as one, and a dollar sign followed by
    an ampersand is sent as the mark [[text]]. *)
Theorem dollar_patterns_in_batch b l queue x y :
  36 ∉ l → 91 ∉ l → 36 ∉ x → 36 ∉ y →
  (join separator queue = x ++ [36; 36] ++ y →
   render_prompt {| batchSize := b; language := l; prompt := default_prompt |} queue
   = default_instruction l ++ x ++ [36] ++ y)
  ∧ (join separator queue = x ++ [36; 38] ++ y →
     render_prompt {| batchSize := b; language := l; prompt := default_prompt |} queue
     = default_instruction l ++ x ++ str "[text]" ++ y).
Proof.
  intros Hl1 Hl2 Hx Hy.
  assert (Hprompt :
    render_prompt {| batchSize := b; language := l; prompt := default_prompt |} queue
    = default_instruction l
      ++ get_substitution (str "[text]") (default_instruction l) [] (join separator queue)).
  { unfold render_prompt, replace_first. cbn [language prompt].
    change default_prompt
      with (str "Translate the following text into " ++ str "[lang]"
            ++ (str " but keep the 6 digit codes between < > intact:" ++ [LF; LF]
                ++ str "[text]")).
    rewrite replace_first_go_at by done.
    replace (str "Translate the following text into " ++ l
             ++ str " but keep the 6 digit codes between < > intact:" ++ [LF; LF]
             ++ str "[text]")
      with (default_instruction l ++ str "[text]" ++ [])
      by (unfold default_instruction; by rewrite app_nil_r, <- !app_assoc).
    rewrite replace_first_go_found; [by rewrite app_nil_r| done |].
    eapply (not_before_char _ _ _ 91); [reflexivity|].
    unfold default_instruction. rewrite !not_elem_of_app. split; [|split; [done|]].
    - apply (bool_decide_unpack _). vm_compute. exact I.
    - apply (bool_decide_unpack _). vm_compute. exact I. }
  split; intros Hjoin; rewrite Hprompt, Hjoin, get_substitution_app by done;
    cbn [app get_substitution N.eqb Pos.eqb]; by rewrite get_substitution_plain.
Qed.

(** Witness of X23: a cue whose text is a price. *)
Lemma dollar_patterns_in_batch_witness :
  render_prompt
    {| batchSize := 15; language := str "fr"; prompt := default_prompt |}
    [msg (str "ABC123") (str "It costs $$5")]
  = default_instruction (str "fr") ++ str "<ABC123>" ++ [LF] ++ str "It costs "
    ++ [36] ++ str "5".
Proof.
  assert (H1 : 36 ∉ str "fr") by (apply (bool_decide_unpack _); vm_compute; exact I).
  assert (H2 : 91 ∉ str "fr") by (apply (bool_decide_unpack _); vm_compute; exact I).
  assert (H3 : 36 ∉ str "<ABC123>" ++ [LF] ++ str "It costs ")
    by (apply (bool_decide_unpack _); vm_compute; exact I).
  assert (H4 : 36 ∉ str "5") by (apply (bool_decide_unpack _); vm_compute; exact I).
  destruct (dollar_patterns_in_batch 15 (str "fr")
              [msg (str "ABC123") (str "It costs $$5")]
              (str "<ABC123>" ++ [LF] ++ str "It costs ") (str "5") H1 H2 H3 H4)
    as [Hdd _].
  rewrite (Hdd eq_refl). by rewrite <- !app_assoc.
Defined.

(** ** Blank lines in a reply *)

Lemma exec_trim_before_blank prev l c r :
  at_line_start prev = true → plain l = true → is_white_space c = false →
  exec trim_re prev (l ++ LF :: LF :: c :: r)
  = Some ([[]; []; []; l; []; [LF]; []], LF :: c :: r).
Proof.
  intros Hprev (x & l' & -> & Hx & Hl)%plain_inv Hc. unfold trim_re.
  rewrite exec_Bol, exec_Star by done.
  cbn [app run_length]. rewrite Hx.
  rewrite (backtrack_found _ _ _ _ ([[]; []; x :: l'; []; [LF]; []], LF :: c :: r));
    [done|].
  rewrite take_0, drop_0. change (prev_after prev []) with prev.
  rewrite exec_Open, exec_Star.
  change (x :: l' ++ LF :: LF :: c :: r) with ((x :: l') ++ LF :: LF :: c :: r).
  rewrite run_length_app, run_length_stop, Nat.add_0_r by done.
  rewrite (backtrack_found _ _ _ _ ([x :: l'; []; [LF]; []], LF :: c :: r)); [done|].
  rewrite take_app_length, drop_app_length, exec_Close, exec_Star.
  cbn [run_length]. change (is_white_space LF) with true. cbv iota. rewrite Hc.
  rewrite backtrack_fewer.
  - by rewrite (backtrack_found _ _ _ _ ([[LF]; []], LF :: c :: r)).
  - cbn [firstn skipn]. rewrite exec_Eol. cbn [at_line_end].
    destruct (is_line_terminator c) eqn:E; [|done].
    by rewrite (line_terminator_white_space _ E) in Hc.
Qed.

Lemma exec_trim_after_blank prev l rest :
  at_line_start prev = true → plain l = true → line_follows rest →
  exec trim_re prev (LF :: l ++ rest)
  = Some ([[]; [LF]; []; l; []; []; []], rest).
Proof.
  intros Hprev (x & l' & -> & Hx & Hl)%plain_inv Hrest. unfold trim_re.
  rewrite exec_Bol, exec_Star by done.
  cbn [app run_length]. change (is_white_space LF) with true. cbv iota. rewrite Hx.
  rewrite (backtrack_found _ _ _ _ ([[LF]; []; x :: l'; []; []; []], rest)); [done|].
  cbn [firstn skipn]. rewrite exec_Open, exec_Star.
  change (x :: l' ++ rest) with ((x :: l') ++ rest).
  rewrite run_length_app, run_length_stop, Nat.add_0_r
    by auto using line_follows_end.
  rewrite (backtrack_found _ _ _ _ ([x :: l'; []; []; []], rest)); [done|].
  rewrite take_app_length, drop_app_length, exec_Close.
  by rewrite exec_trailing.
Qed.

(** X24. The trimming of a reply removes a blank line together with the
    line breaks around it: two plain lines that a blank line keeps apart
    come out as one line. *)
Theorem blank_line_glues_lines l1 l2 ls :
  Forall (λ l, plain l = true) (l1 :: l2 :: ls) →
  replace_all trim_re (dollar1 trim_re) None
    (l1 ++ [LF; LF] ++ join [LF] (l2 :: ls)) 0
  = l1 ++ join [LF] (l2 :: ls).
Proof.
  intros [Hl1 [Hl2 Hls]%Forall_cons]%Forall_cons.
  destruct (plain_inv _ Hl2) as (c & r & -> & Hc & Hdot2).
  destruct (plain_dot _ Hl1) as [Hne1 Hdot1].
  assert (Hj : ∃ rest, join [LF] ((c :: r) :: ls) = (c :: r) ++ rest
                       ∧ line_follows rest
                       ∧ replace_all trim_re (dollar1 trim_re)
                           (prev_after (Some LF) (c :: r)) rest 0 = rest).
  { destruct ls as [|l3 ls].
    - exists []. split; [by rewrite app_nil_r|]. split; [by left|].
      apply replace_all_end, exec_Bol_fail. by apply prev_after_dot.
    - exists (LF :: join [LF] (l3 :: ls)). split; [done|].
      apply Forall_cons in Hls as [Hl3 Hls].
      destruct (join_plain_head l3 ls Hl3) as (c' & r' & Hj' & Hc').
      split; [right; rewrite Hj'; by exists c', r'|].
      rewrite replace_all_copy by (apply exec_Bol_fail; by apply prev_after_dot).
      rewrite trim_plain_lines; [done|done|]. by apply Forall_cons. }
  destruct Hj as (rest & -> & Hrest & Htail).
  cbn [app].
  replace (l1 ++ LF :: LF :: c :: r ++ rest)
    with ((l1 ++ [LF]) ++ LF :: (c :: r) ++ rest) by (by rewrite <- app_assoc).
  rewrite (replace_all_match _ _ _ _ _ [[]; []; []; l1; []; [LF]; []]);
    [| rewrite <- app_assoc; by apply exec_trim_before_blank
     | cbn [concat app]; by rewrite ?app_nil_r
     | by destruct l1].
  replace (LF :: (c :: r) ++ rest) with ((LF :: c :: r) ++ rest) by done.
  rewrite (replace_all_match _ _ _ _ _ [[]; [LF]; []; c :: r; []; []; []]);
    [| apply (exec_trim_after_blank _ (c :: r)); [|done|done]
     | cbn [concat app]; by rewrite ?app_nil_r
     | done].
  - change (dollar1 trim_re [[]; []; []; l1; []; [LF]; []]) with l1.
    change (dollar1 trim_re [[]; [LF]; []; c :: r; []; []; []]) with (c :: r).
    rewrite prev_after_cons, Htail. done.
  - unfold prev_after. by rewrite last_snoc.
Qed.

(** Witness of X24: two lines and a blank line between them. *)
Lemma blank_line_glues_lines_witness :
  Forall (λ l, plain l = true) [str "Bonjour"; str "Monde"]
  ∧ replace_all trim_re (dollar1 trim_re) None
      (str "Bonjour" ++ [LF; LF] ++ join [LF] [str "Monde"]) 0
    = str "Bonjour" ++ join [LF] [str "Monde"].
Proof.
  assert (H : Forall (λ l, plain l = true) [str "Bonjour"; str "Monde"]).
  { repeat (apply Forall_cons; split; [reflexivity|]). constructor. }
  split; [exact H|]. exact (blank_line_glues_lines _ _ _ H).
Defined.

(** What that does to a reply laid out with blank lines around the
    separator: the separator line and the marker after it are glued to
    the text before them, the reply is one segment, and both reach the
    text of the first cue; the second cue keeps its text. *)
Example blank_lines_leak_the_separator :
  texts_of
    (main default_options
       (service_says (msg (str "ABC123") (str "Bonjour") ++ [LF] ++ separator
                      ++ [LF] ++ msg (str "DEF456") (str "Monde")))
       hello_world).1
  = Ok [Some (str "Bonjour<000000><DEF456>"); Some (str "World")].
Proof. vm_compute. reflexivity. Qed.
